(** * GWFrames: spin-weighted data at null infinity and waveforms at a point

    A shallow embedding of the objects declared in [Code/Scri.hpp]
    ([DataGrid], [Modes], [SliceOfScri], [SuperMomenta]) and of the member
    functions of [WaveformAtAPointFT] defined in [WaveformsAtAPointFT.cpp].

    - [int] values are integers of [Z]; signed arithmetic that leaves the
      32-bit range has no defined behaviour and narrowing conversions wrap.
    - [double] is IEEE binary64, the primitive [float] of the kernel.
    - [std::vector<T>] is [list T]; an access [v[i]] outside the vector has
      no defined behaviour.
    - a function that can [throw], write to [std::cerr] or run into undefined
      behaviour lives in the monad [M]; running out of memory is not
      modelled. *)

From Stdlib Require Import ZArith Floats Ascii String.
From stdpp Require Import base list strings pretty.

#[local] Open Scope Z_scope.

(** ** The C++ execution model shared by all classes *)

Module Cxx.

Definition INT_MIN : Z := - 2 ^ 31.
Definition INT_MAX : Z := 2 ^ 31 - 1.

Definition int_range (z : Z) : Prop := INT_MIN ≤ z ≤ INT_MAX.
Definition int_rangeb (z : Z) : bool := (INT_MIN <=? z) && (z <=? INT_MAX).

(** Conversion of an integer that may not fit to [int]: reduction modulo
    [2^32] into the signed range. *)
Definition to_int (z : Z) : Z := (z + 2 ^ 31) `mod` 2 ^ 32 - 2 ^ 31.

(** Modelled from the spec: the error codes are macros of Errors.hpp, which
    is missing; the three that the code modelled here throws are kept apart
    by name (not yet implemented, size mismatch, index out of range).
    [std_exception] stands for the standard-library exception of a vector
    constructor asked for more than [max_size()] elements
    ([std::length_error] or [std::bad_alloc], by the library version). *)
Inductive exn : Set :=
| GWFrames_NotYetImplemented
| GWFrames_VectorSizeMismatch
| GWFrames_IndexOutOfBounds
| std_exception.

(** How a call ends: it returns, it throws, or its behaviour is undefined. *)
Inductive outcome (A : Type) : Type :=
| Normal (a : A)
| Throws (e : exn)
| Undefined.
Arguments Normal {A} a.
Arguments Throws {A} e.
Arguments Undefined {A}.

(** A computation: the text it wrote to [std::cerr] and how it ended. *)
Definition M (A : Type) : Type := string * outcome A.

Definition ret {A} (a : A) : M A := (EmptyString, Normal a).
Definition throw {A} (e : exn) : M A := (EmptyString, Throws e).
Definition undefined {A} : M A := (EmptyString, Undefined).
Definition cerr (msg : string) : M unit := (msg, Normal tt).

Definition bind {A B} (m : M A) (k : A → M B) : M B :=
  match m with
  | (w, Normal a) => let '(w', r) := k a in (w +:+ w', r)
  | (w, Throws e) => (w, Throws e)
  | (w, Undefined) => (w, Undefined)
  end.

#[global] Instance M_ret : MRet M := @ret.
#[global] Instance M_bind : MBind M := λ A B k m, bind m k.

Definition endl : string := String "010"%char EmptyString.
Definition tab : string := String "009"%char EmptyString.

(** Signed [int] arithmetic. *)
Definition int_add (a b : Z) : M Z :=
  if int_rangeb (a + b) then ret (a + b) else undefined.
Definition int_mul (a b : Z) : M Z :=
  if int_rangeb (a * b) then ret (a * b) else undefined.

(** [v[i]] as an rvalue and [v[i] = x]. *)
Definition vec_get {A} (v : list A) (i : nat) : M A :=
  match v !! i with
  | Some x => ret x
  | None => undefined
  end.
Definition vec_set {A} (v : list A) (i : nat) (x : A) : M (list A) :=
  if decide (i < length v)%nat then ret (<[i:=x]> v) else undefined.

(** [for (i = start; i < start + n; ++i) body], threading the state. *)
Fixpoint for_loop {St} (body : nat → St → M St) (start n : nat) (st : St) : M St :=
  match n with
  | O => ret st
  | S n' => st' ← body start st; for_loop body (S start) n' st'
  end.

(** [std::complex<double>] *)
Record complex : Set := Complex { real : float; imag : float }.
Definition complex_zero : complex := Complex 0%float 0%float.

End Cxx.
Import Cxx.

(** ** [class DataGrid] (Scri.hpp:25-63) *)

Module DataGrid.

Record obj : Set := mk {
  s : Z;
  n_theta : Z;
  n_phi : Z;
  data : list complex }.

(** [DataGrid(const int size=0)]: the members are initialised in the order
    of their declaration; [std::sqrt(size)] is the double square root,
    truncated by the conversion to [int] (for [0 <= size < 2^31] the
    correctly rounded root is never rounded up to the next integer, so the
    truncation is the integer square root).  For a negative [size] the
    root is a NaN, whose conversion to [int] is undefined. *)
Definition of_size (size : Z) : M obj :=
  if size <? 0 then undefined
  else ret {| s := 0; n_theta := Z.sqrt size; n_phi := Z.sqrt size;
              data := replicate (Z.to_nat size) complex_zero |}.

(** [DataGrid(const DataGrid& A)] *)
Definition copy (A : obj) : obj :=
  {| s := s A; n_theta := n_theta A; n_phi := n_phi A; data := data A |}.

Definition SetSpin (g : obj) (ess : Z) : obj :=
  {| s := ess; n_theta := n_theta g; n_phi := n_phi g; data := data g |}.
Definition SetNTheta (g : obj) (N_theta : Z) : obj :=
  {| s := s g; n_theta := N_theta; n_phi := n_phi g; data := data g |}.
Definition SetNPhi (g : obj) (N_phi : Z) : obj :=
  {| s := s g; n_theta := n_theta g; n_phi := N_phi; data := data g |}.

(** [unsigned int size() const { return data.size(); }] *)
Definition size (g : obj) : Z := Z.of_nat (length (data g)) `mod` 2 ^ 32.
Definition Spin (g : obj) : Z := s g.
Definition N_theta (g : obj) : Z := n_theta g.
Definition N_phi (g : obj) : Z := n_phi g.
Definition Data (g : obj) : list complex := data g.

(** The shape invariant: as many stored samples as grid points. *)
Definition shape_ok (g : obj) : Prop :=
  Z.of_nat (length (data g)) = N_theta g * N_phi g.

(** [operator[](const unsigned int i)]: [data[i]], read and assigned to. *)
Definition subscript (g : obj) (i : nat) : M complex := vec_get (data g) i.
Definition assign (g : obj) (i : nat) (x : complex) : M obj :=
  d ← vec_set (data g) i x;
  ret {| s := s g; n_theta := n_theta g; n_phi := n_phi g; data := d |}.

End DataGrid.

(** ** [class Modes] (Scri.hpp:73-111) *)

Module Modes.

Record obj : Set := mk {
  s : Z;
  ellMax : Z;
  data : list complex }.

(** [Modes(const int size=0)]; a negative [size] converts to a [size_t]
    above [max_size()] and the vector constructor throws. *)
Definition of_size (size : Z) : M obj :=
  if size <? 0 then throw std_exception
  else ret {| s := 0; ellMax := 0;
              data := replicate (Z.to_nat size) complex_zero |}.

(** [Modes(const Modes& A)] *)
Definition copy (A : obj) : obj :=
  {| s := s A; ellMax := ellMax A; data := data A |}.

Definition SetSpin (m : obj) (ess : Z) : obj :=
  {| s := ess; ellMax := ellMax m; data := data m |}.
Definition SetEllMax (m : obj) (ell : Z) : obj :=
  {| s := s m; ellMax := ell; data := data m |}.

Definition size (m : obj) : Z := Z.of_nat (length (data m)) `mod` 2 ^ 32.
Definition Spin (m : obj) : Z := s m.
Definition EllMax (m : obj) : Z := ellMax m.
Definition Data (m : obj) : list complex := data m.

(** The shape invariant: one coefficient per [(ell,m)] up to [EllMax()]. *)
Definition shape_ok (m : obj) : Prop :=
  Z.of_nat (length (data m)) = (EllMax m + 1) * (EllMax m + 1).

(** [operator[](const unsigned int i)]: [data[i]], read and assigned to. *)
Definition subscript (m : obj) (i : nat) : M complex := vec_get (data m) i.
Definition assign (m : obj) (i : nat) (x : complex) : M obj :=
  d ← vec_set (data m) i x;
  ret {| s := s m; ellMax := ellMax m; data := d |}.

End Modes.

(** ** Conversions between the two representations, and [Modes::pow]

    [DataGrid(Modes, int, int)], [Modes(DataGrid, int)] and [DataGrid::pow]
    are declared in Scri.hpp (lines 43, 87 and 62) and defined in Scri.cpp
    on top of the spinsfast library; [Modes::pow], which is defined in the
    header, is modelled over any implementation of them. *)

Class Transforms : Type := {
  (** [explicit DataGrid(Modes M, const int N_theta=0, const int N_phi=0)] *)
  DataGrid_of_Modes : Modes.obj → Z → Z → M DataGrid.obj;
  (** [explicit Modes(DataGrid D, const int L=-1)] *)
  Modes_of_DataGrid : DataGrid.obj → Z → M Modes.obj;
  (** [DataGrid DataGrid::pow(const int p) const] *)
  DataGrid_pow : DataGrid.obj → Z → M DataGrid.obj }.

Section ModesOperations.
Context `{Transforms}.

(** The [int] expression [2*EllMax()*p+1], evaluated left to right. *)
Definition pow_resolution (this : Modes.obj) (p : Z) : M Z :=
  a ← int_mul 2 (Modes.EllMax this);
  b ← int_mul a p;
  int_add b 1.

(** [Modes pow(const int p) const
      return Modes(DataGrid(this, 2*EllMax()*p+1, 2*EllMax()*p+1).pow(p))]:
    the receiver is passed by value, the default [L=-1] is used *)
Definition Modes_pow (this : Modes.obj) (p : Z) : M Modes.obj :=
  N_theta ← pow_resolution this p;
  N_phi ← pow_resolution this p;
  grid ← DataGrid_of_Modes (Modes.copy this) N_theta N_phi;
  power ← DataGrid_pow grid p;
  Modes_of_DataGrid power (-1).

End ModesOperations.

(** ** [template <class D> class SliceOfScri] (Scri.hpp:115-145) *)

Module SliceOfScri.

Record obj (D : Type) : Type := mk {
  psi0 : D; psi1 : D; psi2 : D; psi3 : D; psi4 : D;
  sigma : D; sigmadot : D }.
Arguments mk {D}.
Arguments psi0 {D}.
Arguments psi1 {D}.
Arguments psi2 {D}.
Arguments psi3 {D}.
Arguments psi4 {D}.
Arguments sigma {D}.
Arguments sigmadot {D}.

Section Access.
Context {D : Type}.
(** The expansion of [__FILE__] where the header is compiled. *)
Variable FILE : string.

(** What the last branch of [operator[]] writes to [std::cerr]. *)
Definition out_of_bounds_message (LINE : nat) (i : N) : string :=
  endl +:+ endl +:+ FILE +:+ ":" +:+ pretty LINE +:+ endl
  +:+ "Error: (i=" +:+ pretty i +:+ ")>6" +:+ endl +:+ endl.

Definition subscript (LINE : nat) (S : obj D) (i : N) : M D :=
  if (i =? 0)%N then ret (psi0 S)
  else if (i =? 1)%N then ret (psi1 S)
  else if (i =? 2)%N then ret (psi2 S)
  else if (i =? 3)%N then ret (psi3 S)
  else if (i =? 4)%N then ret (psi4 S)
  else if (i =? 5)%N then ret (sigma S)
  else if (i =? 6)%N then ret (sigmadot S)
  else _ ← cerr (out_of_bounds_message LINE i);
       throw GWFrames_IndexOutOfBounds.

(** [const D& operator[](const unsigned int i) const], whose [throw] is
    on line 133, and [D& operator[](const unsigned int i)], whose
    [throw] is on line 143. *)
Definition index_const : obj D → N → M D := subscript 133.
Definition index : obj D → N → M D := subscript 143.
End Access.

End SliceOfScri.

(** ** [class SuperMomenta] (Scri.hpp:199-217) *)

Module SuperMomenta.

Record obj : Set := mk {
  t : list float;
  Psi : list Modes.obj }.

(** [SuperMomenta(const unsigned int size) : t(size), Psi(size)]: [size]
    zeros and [size] default-constructed [Modes]. *)
Definition of_size (size : N) : M obj :=
  m ← Modes.of_size 0;
  ret {| t := replicate (N.to_nat size) 0%float;
         Psi := replicate (N.to_nat size) m |}.

(** [SuperMomenta(const SuperMomenta& S) : t(S.t), Psi(S.Psi)] *)
Definition copy (S : obj) : obj := {| t := t S; Psi := Psi S |}.

(** [SuperMomenta(const std::vector<double>& T, const std::vector<Modes>& psi)
      : t(T), Psi(psi) { }] *)
Definition of_T_psi (T : list float) (psi : list Modes.obj) : M obj :=
  ret {| t := T; Psi := psi |}.

(** [int NTimes() const { return t.size(); }]: the [size_t] is narrowed
    to [int]. *)
Definition NTimes (S : obj) : Z := to_int (Z.of_nat (length (t S))).
Definition T (S : obj) : list float := t S.
(** [const Modes operator[](const unsigned int i) const { return Psi[i]; }] *)
Definition index_const (S : obj) (i : nat) : M Modes.obj := vec_get (Psi S) i.

(** What a [Modes&] argument of a member call can refer to: an element of
    the receiver's own series, which [Modes& operator[](const unsigned int i)]
    (Scri.hpp:213) hands out by reference, or a [Modes] object of the
    caller. *)
Inductive reference : Set :=
| own_field (i : nat)
| caller_object (l : nat).

(** The objects a call [S.MoreschiIteration(OneOverK, delta)] can reach:
    the receiver and the [Modes] objects of the caller. *)
Record store : Set := Store {
  receiver : obj;
  objects : list Modes.obj }.

(** Reading and assigning through a reference. *)
Definition read (σ : store) (r : reference) : M Modes.obj :=
  match r with
  | own_field i => vec_get (Psi (receiver σ)) i
  | caller_object l => vec_get (objects σ) l
  end.
Definition write (σ : store) (r : reference) (m : Modes.obj) : M store :=
  match r with
  | own_field i =>
      psi ← vec_set (Psi (receiver σ)) i m;
      ret {| receiver := {| t := t (receiver σ); Psi := psi |};
             objects := objects σ |}
  | caller_object l =>
      os ← vec_set (objects σ) l m;
      ret {| receiver := receiver σ; objects := os |}
  end.

Section Moreschi.
(** [Modes BMSTransform(const Modes& OneOverK, const Modes& delta) const]
    (Scri.hpp:215, defined in Scri.cpp). *)
Variable BMSTransform : obj → Modes.obj → Modes.obj → M Modes.obj.
(** The closed-form solve of the update rule: from the transformed
    supermomentum and the current candidate to the corrected pair. *)
Variable solve_corrections :
  Modes.obj → Modes.obj → Modes.obj → M (Modes.obj * Modes.obj).

(** Modelled from the spec: the body of
    [void MoreschiIteration(Modes& OneOverK, Modes& delta) const]
    (declared on Scri.hpp:216, defined in Scri.cpp, which is missing).
    Per call: from the current [(OneOverK, delta)] compute the transformed
    supermomentum, solve for the corrected pair, and assign both through
    the references.  The member is [const]: it assigns to nothing through
    [this]; what its two references refer to is the caller's choice. *)
Definition MoreschiIteration (OneOverK delta : reference) (σ : store)
    : M (unit * store) :=
  k ← read σ OneOverK;
  d ← read σ delta;
  transformed ← BMSTransform (receiver σ) k d;
  '(k', d') ← solve_corrections transformed k d;
  σ ← write σ OneOverK k';
  σ ← write σ delta d';
  ret (tt, σ).
End Moreschi.

End SuperMomenta.

(** ** [class WaveformAtAPointFT] (WaveformsAtAPointFT.cpp) *)

Module WaveformAtAPointFT.

(** The data members that the constructors initialise and the member
    functions use. *)
Record obj : Set := mk {
  mDt : float;
  mVartheta : float;
  mVarphi : float;
  mRealF : list float;
  mImagF : list float;
  mFreqs : list float;
  mNormalized : bool }.

Definition set_mRealF (W : obj) (v : list float) : obj :=
  {| mDt := mDt W; mVartheta := mVartheta W; mVarphi := mVarphi W;
     mRealF := v; mImagF := mImagF W; mFreqs := mFreqs W;
     mNormalized := mNormalized W |}.
Definition set_mImagF (W : obj) (v : list float) : obj :=
  {| mDt := mDt W; mVartheta := mVartheta W; mVarphi := mVarphi W;
     mRealF := mRealF W; mImagF := v; mFreqs := mFreqs W;
     mNormalized := mNormalized W |}.
Definition set_mNormalized (W : obj) (b : bool) : obj :=
  {| mDt := mDt W; mVartheta := mVartheta W; mVarphi := mVarphi W;
     mRealF := mRealF W; mImagF := mImagF W; mFreqs := mFreqs W;
     mNormalized := b |}.

(** Modelled from the spec: the inline accessors [NFreq()], [F(i)],
    [Re(i)], [Im(i)] and [IsNormalized()] of the class declaration in
    WaveformsAtAPointFT.hpp, which is missing.  They are read off their
    uses in WaveformsAtAPointFT.cpp: the number of frequency bins, the
    frequency of bin [i], the real and imaginary parts stored for bin [i],
    and the normalization flag. *)
Definition NFreq (W : obj) : nat := length (mFreqs W).
Definition F (W : obj) (i : nat) : M float := vec_get (mFreqs W) i.
Definition Re (W : obj) (i : nat) : M float := vec_get (mRealF W) i.
Definition Im (W : obj) (i : nat) : M float := vec_get (mImagF W) i.
Definition IsNormalized (W : obj) : bool := mNormalized W.

(** The constructors leave the three arrays with one entry per bin
    ([mRealF.resize(mFreqs.size())], [mImagF.resize(mFreqs.size())]). *)
Definition well_formed (W : obj) : Prop :=
  length (mRealF W) = NFreq W ∧ length (mImagF W) = NFreq W.

(** A well-formed object over the frequencies [freqs]. *)
Definition bins_are (freqs : list float) (W : obj) : Prop :=
  mFreqs W = freqs ∧ well_formed W.

Definition disabled_message : string :=
  "The old constructor of WaveformAtAPointFT has been disabled." +:+ endl
  +:+ "Please use the new constructor, which takes 'WindowEndTime'" +:+ endl
  +:+ "instead of 'WindowNCycles' and takes 'Direction' instead of" +:+ endl
  +:+ "'Vartheta' and 'Varphi'." +:+ endl.

(** The constructor taking [WindowNCycles], [Vartheta] and [Varphi]
    (WaveformsAtAPointFT.cpp, first definition): after the member
    initialisers its body writes the notice and throws. *)
Definition old_constructor {Waveform : Type}
    (W : Waveform) (Dt Vartheta Varphi TotalMass : float)
    (WindowNCycles : N) (DetectorResponseAmp DetectorResponsePhase : float)
    (ExtraZeroPadPowers : N) : M obj :=
  let under_construction :=
    {| mDt := Dt; mVartheta := Vartheta; mVarphi := Varphi;
       mRealF := []; mImagF := []; mFreqs := []; mNormalized := false |} in
  _ ← cerr disabled_message;
  throw GWFrames_NotYetImplemented.

Definition spectrum_mismatch_message (this : obj) (RealT : list float) : string :=
  "Time and frequency data size mismatch: " +:+ pretty (length (mFreqs this))
  +:+ "," +:+ pretty (length RealT `div` 2 + 1)%nat +:+ endl.

(** One round of the loop that stores the transform:
    [mRealF[i] = Dt_dimensionful*RealT[2*i];
     mImagF[i] = Dt_dimensionful*RealT[2*i+1];] *)
Definition store_body (Dt_dimensionful : float) (RealT : list float)
    (i : nat) (this : obj) : M obj :=
  a ← vec_get RealT (2 * i);
  re' ← vec_set (mRealF this) i (Dt_dimensionful * a)%float;
  b ← vec_get RealT (2 * i + 1);
  im' ← vec_set (mImagF this) i (Dt_dimensionful * b)%float;
  ret (set_mImagF (set_mRealF this re') im').

(** The end of the constructor taking [Direction], [WindowBeginTime] and
    [WindowEndTime], from the size check that follows [WU::realdft(RealT)]
    to the closing brace.  [this] is the object under construction, with
    [mFreqs] already assigned; [RealT] is the transformed data.
    [v.resize(n)] pads with zeros or truncates; [v.back()] is the last
    entry of a vector that has one. *)
Definition store_spectrum (this : obj) (Dt_dimensionful : float)
    (RealT : list float) : M obj :=
  if decide (length (mFreqs this) ≠ length RealT `div` 2 + 1)%nat then
    _ ← cerr (spectrum_mismatch_message this RealT);
    throw GWFrames_VectorSizeMismatch
  else
    let this := set_mRealF this
                  (resize (length (mFreqs this)) 0%float (mRealF this)) in
    let this := set_mImagF this
                  (resize (length (mFreqs this)) 0%float (mImagF this)) in
    this ← for_loop (store_body Dt_dimensionful RealT) 0
             (length RealT `div` 2) this;
    re' ← vec_set (mRealF this) (length (mRealF this) - 1) 0%float;
    im' ← vec_set (mImagF this) (length (mImagF this) - 1) 0%float;
    im'' ← vec_set im' 0 0%float;
    ret (set_mImagF (set_mRealF this re') im'').

Definition size_mismatch_message (W : obj) (InversePSD : list float) : string :=
  endl +:+ "this->NFreq()=" +:+ pretty (NFreq W) +:+ tab
  +:+ "InversePSD.size()=" +:+ pretty (length InversePSD) +:+ endl.

(** One round of the summation loop of [SNR]. *)
Definition SNR_body (W : obj) (InversePSD : list float)
    (i : nat) (SNRSquared : float) : M float :=
  re ← Re W i;
  im ← Im W i;
  w ← vec_get InversePSD i;
  ret (SNRSquared + (re * re + im * im) * w)%float.

(** [double SNR(const std::vector<double>& InversePSD) const] *)
Definition SNR (W : obj) (InversePSD : list float) : M float :=
  if decide (NFreq W ≠ length InversePSD) then
    _ ← cerr (size_mismatch_message W InversePSD);
    throw GWFrames_VectorSizeMismatch
  else
    SNRSquared ← for_loop (SNR_body W InversePSD) 0 (NFreq W) 0%float;
    f1 ← F W 1;
    f0 ← F W 0;
    ret (sqrt (4 * (f1 - f0) * SNRSquared))%float.

(** One round of the loop of [Normalize]:
    [mRealF[i] /= snr; mImagF[i] /= snr;] *)
Definition Normalize_body (snr : float) (i : nat) (W : obj) : M obj :=
  re ← vec_get (mRealF W) i;
  re' ← vec_set (mRealF W) i (re / snr)%float;
  im ← vec_get (mImagF W) i;
  im' ← vec_set (mImagF W) i (im / snr)%float;
  ret (set_mImagF (set_mRealF W re') im').

(** [WaveformAtAPointFT& Normalize(const vector<double>& InversePSD)];
    the returned reference is to the receiver, whose new state is the
    value returned here. *)
Definition Normalize (W : obj) (InversePSD : list float) : M obj :=
  if mNormalized W then ret W
  else
    snr ← SNR W InversePSD;
    W' ← for_loop (Normalize_body snr) 0 (length (mRealF W)) W;
    ret (set_mNormalized W' true).

(** One round of the loop of [ZeroAbove]. *)
Definition ZeroAbove_body (Frequency : float) (f : nat) (W : obj) : M obj :=
  x ← F W f;
  if (Frequency <? abs x)%float then
    re' ← vec_set (mRealF W) f 0%float;
    im' ← vec_set (mImagF W) f 0%float;
    ret (set_mImagF (set_mRealF W re') im')
  else ret W.

(** [WaveformAtAPointFT& ZeroAbove(const double Frequency)]; the loop
    bound [NFreq()] does not change while the loop runs, no round touches
    [mFreqs]. *)
Definition ZeroAbove (W : obj) (Frequency : float) : M obj :=
  for_loop (ZeroAbove_body Frequency) 0 (NFreq W) W.

(** What [ZeroAbove] leaves in a value array [v]: bin by bin, zero where
    the frequency is above the threshold in magnitude, the old value
    elsewhere. *)
Definition zeroed_above (Frequency : float) (freqs v : list float) : list float :=
  zip_with (λ x y, if (Frequency <? abs x)%float then 0%float else y) freqs v.

(** What the constructor stores from the transform [RealT]: the even
    entries scaled as real parts and the odd entries as imaginary parts,
    then a zero bin at the Nyquist frequency; and a zero imaginary part in
    the first bin. *)
Definition scaled_entries (Dt_dimensionful : float) (RealT : list float)
    (offset first count : nat) : list float :=
  (λ i, (Dt_dimensionful * default 0 (RealT !! (2 * i + offset)%nat))%float)
    <$> seq first count.
Definition spectrum_real (Dt_dimensionful : float) (RealT : list float) : list float :=
  scaled_entries Dt_dimensionful RealT 0 0 (length RealT `div` 2) ++ [0%float].
Definition spectrum_imag (Dt_dimensionful : float) (RealT : list float) : list float :=
  <[0%nat:=0%float]>
    (scaled_entries Dt_dimensionful RealT 1 0 (length RealT `div` 2) ++ [0%float]).

(** *** The rest of the interface: inner products, detectors, matches *)

(** [double BumpFunction(const double x, const double x0, const double x1)],
    over the [exp] of the C library. *)
Definition BumpFunction (exp : float → float) (x x0 x1 : float) : float :=
  if (x <=? x0)%float then 0%float
  else if (x1 <=? x)%float then 1%float
  else
    let t := ((x - x0) / (x1 - x0))%float in
    (1 / (1 + exp (1 / t - 1 / (1 - t))))%float.

(** The windowing loop of the constructor taking [Direction]:
    [for(unsigned int j=0; j<NewTimes.size(); j++) {
       RealT[j] *= BumpFunction(NewTimes[j], WindowBeginTime, WindowEndTime);
       if (NewTimes[j] >= WindowEndTime) { break; } }],
    started at sample [j] with [n] samples to go. *)
Fixpoint window_loop (exp : float → float)
    (WindowBeginTime WindowEndTime : float) (NewTimes : list float)
    (j n : nat) (RealT : list float) : M (list float) :=
  match n with
  | O => ret RealT
  | S n' =>
      t ← vec_get NewTimes j;
      x ← vec_get RealT j;
      RealT ← vec_set RealT j
                (x * BumpFunction exp t WindowBeginTime WindowEndTime)%float;
      if (WindowEndTime <=? t)%float then ret RealT
      else window_loop exp WindowBeginTime WindowEndTime NewTimes (S j) n' RealT
  end.
Definition window (exp : float → float)
    (WindowBeginTime WindowEndTime : float) (NewTimes RealT : list float)
    : M (list float) :=
  window_loop exp WindowBeginTime WindowEndTime NewTimes 0 (length NewTimes) RealT.

(** What the windowing leaves: every sample up to and including the first
    one at or after the end of the window multiplied by the bump function
    of its time, the later samples as they were. *)
Fixpoint windowed (exp : float → float)
    (WindowBeginTime WindowEndTime : float) (times RealT : list float)
    : list float :=
  match times, RealT with
  | t :: times', x :: RealT' =>
      (x * BumpFunction exp t WindowBeginTime WindowEndTime)%float
      :: (if (WindowEndTime <=? t)%float then RealT'
          else windowed exp WindowBeginTime WindowEndTime times' RealT')
  | _, _ => RealT
  end.

(** [double sqr(const double& a)], [double cube(const double& a)] *)
Definition sqr (a : float) : float := (a * a)%float.
Definition cube (a : float) : float := (a * a * a)%float.

Definition nfreq_mismatch_message (W B : obj) : string :=
  endl +:+ "this->NFreq()=" +:+ pretty (NFreq W) +:+ tab
  +:+ "B.NFreq()=" +:+ pretty (NFreq B) +:+ endl.

(** One round of the summation loop of [InnerProduct]. *)
Definition InnerProduct_body (W B : obj) (InversePSD : list float)
    (i : nat) (InnerProduct : float) : M float :=
  re ← Re W i;
  bre ← Re B i;
  im ← Im W i;
  bim ← Im B i;
  w ← vec_get InversePSD i;
  ret (InnerProduct + (re * bre + im * bim) * w)%float.

(** [double InnerProduct(const WaveformAtAPointFT& B,
                        const vector<double>& InversePSD) const] *)
Definition InnerProduct (W B : obj) (InversePSD : list float) : M float :=
  if decide (NFreq W ≠ NFreq B) then
    _ ← cerr (nfreq_mismatch_message W B);
    throw GWFrames_VectorSizeMismatch
  else if decide (NFreq W ≠ length InversePSD) then
    _ ← cerr (size_mismatch_message W InversePSD);
    throw GWFrames_VectorSizeMismatch
  else
    InnerProduct ← for_loop (InnerProduct_body W B InversePSD) 0 (NFreq W) 0%float;
    f1 ← F W 1;
    f0 ← F W 0;
    ret (4 * (f1 - f0) * InnerProduct)%float.

(** The summands of [InnerProduct] and [SNR], bin by bin, and their sum
    from the left, starting at zero. *)
Definition inner_terms (re bre im bim psd : list float) : list float :=
  zip_with (λ p w, (p * w)%float)
    (zip_with (λ a b, (a + b)%float)
       (zip_with (λ x y, (x * y)%float) re bre)
       (zip_with (λ x y, (x * y)%float) im bim))
    psd.
Definition float_sum (terms : list float) : float :=
  fold_left (λ acc x, (acc + x)%float) terms 0%float.

(** What [Normalize] leaves in a value array: every entry divided by the
    signal-to-noise ratio. *)
Definition divided_by (snr : float) (v : list float) : list float :=
  (λ x, (x / snr)%float) <$> v.

(** [WU::InverseNoiseCurve(F, Detector)] of NoiseCurves.hpp: the inverse
    power spectral density of a named detector on the given frequencies. *)
Class NoiseCurves : Type := {
  InverseNoiseCurve : list float → string → M (list float) }.

Section Detector.
Context `{NoiseCurves}.

(** [WaveformAtAPointFT& Normalize(const std::string& Detector)
      { return Normalize(WU::InverseNoiseCurve(F(), Detector)); }] *)
Definition Normalize_Detector (W : obj) (Detector : string) : M obj :=
  InversePSD ← InverseNoiseCurve (mFreqs W) Detector;
  Normalize W InversePSD.

(** [vector<double> InversePSD(const std::string& Detector) const] *)
Definition InversePSD (W : obj) (Detector : string) : M (list float) :=
  InverseNoiseCurve (mFreqs W) Detector.

(** [double SNR(const std::string& Detector) const] *)
Definition SNR_Detector (W : obj) (Detector : string) : M float :=
  InversePSD ← InverseNoiseCurve (mFreqs W) Detector;
  SNR W InversePSD.
End Detector.

(** The collaborators of [Match]: [WU::WrapVecDoub] and [idft] of fft.hpp,
    [atan2] of the C library, and the text that [operator<<] prints for a
    [double]. *)
Class FFT : Type := {
  WrapVecDoub : Type;
  (** [WU::WrapVecDoub data(n)] *)
  WrapVecDoub_new : Z → M WrapVecDoub;
  (** [data.real(i)], [data.imag(i)] read *)
  wv_real : WrapVecDoub → Z → M float;
  wv_imag : WrapVecDoub → Z → M float;
  (** [data.real(i) = x], [data.imag(i) = x] *)
  wv_set_real : WrapVecDoub → Z → float → M WrapVecDoub;
  wv_set_imag : WrapVecDoub → Z → float → M WrapVecDoub;
  (** [idft(data)], in place *)
  idft : WrapVecDoub → M WrapVecDoub;
  atan2 : float → float → float;
  show_double : float → string }.

(** Arithmetic of [unsigned int]: modulo [2^32]. *)
Definition to_unsigned (z : Z) : Z := z `mod` 2 ^ 32.
(** The [double] of an [unsigned int] (exact). *)
Definition unsigned_to_double (u : Z) : float :=
  PrimFloat.of_uint63 (Uint63.of_Z u).

Section Match.
Context `{FFT}.

Definition warning_message : string :=
  endl +:+ endl
  +:+ "WARNING!!! Matching non-normalized WaveformAtAPointFT objects. WARNING!!!"
  +:+ endl +:+ endl.

Definition sizes_message (W B : obj) (InversePSD : list float) : string :=
  "Waveform sizes, " +:+ pretty (NFreq W) +:+ " and " +:+ pretty (NFreq B)
  +:+ ", are not compatible with InversePSD size, "
  +:+ pretty (length InversePSD) +:+ "." +:+ endl.

Definition steps_message (df df_B rel_diff_df : float) : string :=
  "Waveform frequency steps, " +:+ show_double df +:+ " and "
  +:+ show_double df_B +:+ ", are not compatible in Match: rel_diff="
  +:+ show_double rel_diff_df +:+ endl.

(** [const double eps = 1e-8;]: the double nearest to [1e-8]. *)
Definition eps : float := 0x1.5798ee2308c3ap-27%float.

(** One round of the loop that fills the cross spectrum. *)
Definition Match_fill_body (W B : obj) (InversePSD : list float)
    (i : nat) (data : WrapVecDoub) : M WrapVecDoub :=
  re ← Re W i;
  bre ← Re B i;
  im ← Im W i;
  bim ← Im B i;
  w ← vec_get InversePSD i;
  data ← wv_set_real data (Z.of_nat i) ((re * bre + im * bim) * w)%float;
  wv_set_imag data (Z.of_nat i) ((im * bre - re * bim) * w)%float.

(** [std::sqrt(sqr(data.real(i)) + sqr(data.imag(i)))] *)
Definition magnitude (data : WrapVecDoub) (i : Z) : M float :=
  re ← wv_real data i;
  im ← wv_imag data i;
  ret (sqrt (sqr re + sqr im))%float.

(** One round of the search for the largest magnitude; the state is
    [(maxi, maxmag)].  [maxi = int(i)] gives [maxi] the value of [i]. *)
Definition Match_search_body (data : WrapVecDoub)
    (i : nat) (st : Z * float) : M (Z * float) :=
  mag ← magnitude data (Z.of_nat i);
  if (snd st <? mag)%float then ret (Z.of_nat i, mag) else ret st.

(** What the search loop maintains, having looked at the entries below
    [i]: [maxmag] is the magnitude of entry [maxi], and no entry below [i]
    has a larger one. *)
Definition largest_below (data : WrapVecDoub) (i : nat) (st : Z * float) : Prop :=
  (∃ k : nat, st.1 = Z.of_nat k ∧ (k < i)%nat)
  ∧ (∃ w, magnitude data st.1 = (w, Normal st.2))
  ∧ ∀ j : nat, (j < i)%nat →
      ∃ w mag, magnitude data (Z.of_nat j) = (w, Normal mag)
               ∧ (st.2 <? mag)%float = false.

(** [void Match(const WaveformAtAPointFT& B,
                const std::vector<double>& InversePSD,
                double& timeOffset, double& phaseOffset, double& match) const]:
    the three results are assigned at the very end; the value returned
    here is [(timeOffset, phaseOffset, match)]. *)
Definition Match (W B : obj) (InversePSD : list float) : M (float * float * float) :=
  let n := NFreq W in
  let N := to_unsigned (2 * (Z.of_nat n - 1)) in
  _ ← (if negb (IsNormalized W) || negb (IsNormalized B)
       then cerr warning_message else ret tt);
  if decide (n ≠ NFreq B ∨ n ≠ length InversePSD) then
    _ ← cerr (sizes_message W B InversePSD);
    throw GWFrames_VectorSizeMismatch
  else
    f1 ← F W 1;
    f0 ← F W 0;
    let df := (f1 - f0)%float in
    bf1 ← F B 1;
    bf0 ← F B 0;
    let df_B := (bf1 - bf0)%float in
    let rel_diff_df := abs (1 - df / df_B)%float in
    if (eps <? rel_diff_df)%float then
      _ ← cerr (steps_message df df_B rel_diff_df);
      throw GWFrames_VectorSizeMismatch
    else
      data ← WrapVecDoub_new (to_unsigned (2 * N));
      data ← for_loop (Match_fill_body W B InversePSD) 0 n data;
      data ← idft data;
      maxmag ← magnitude data 0;
      '(maxi, maxmag) ← for_loop (Match_search_body data) 1
                          (Z.to_nat (N - 1)) (0, maxmag);
      let timeOffset :=
        if maxi <? N `div` 2
        then (unsigned_to_double maxi / (unsigned_to_double N * df))%float
        else (- unsigned_to_double (to_unsigned (N - maxi))
              / (unsigned_to_double N * df))%float in
      im ← wv_imag data maxi;
      re ← wv_real data maxi;
      let phaseOffset := (atan2 im re / 2)%float in
      let match_ := (4 * df * maxmag)%float in
      ret (timeOffset, phaseOffset, match_).

(** [double Match(const WaveformAtAPointFT& B,
                  const std::vector<double>& InversePSD) const] *)
Definition Match_value (W B : obj) (InversePSD : list float) : M float :=
  '(timeOffset, phaseOffset, match_) ← Match W B InversePSD;
  ret match_.
End Match.

End WaveformAtAPointFT.

(** ** The order of doubles

    [SFcompare] of the standard library orders the non-NaN values of the
    format; [SF_key] places each of them in [Z * Z * Z], ordered
    lexicographically, so that comparisons become linear arithmetic. *)

Module DoubleOrder.

Definition SF_is_nan (x : spec_float) : bool :=
  match x with S754_nan => true | _ => false end.

Definition SF_key (x : spec_float) : Z * Z * Z :=
  match x with
  | S754_nan => (0, 0, 0)
  | S754_infinity true => (-2, 0, 0)
  | S754_finite true m e => (-1, - e, Z.neg m)
  | S754_zero _ => (0, 0, 0)
  | S754_finite false m e => (1, e, Z.pos m)
  | S754_infinity false => (2, 0, 0)
  end.

Definition key_lt (k1 k2 : Z * Z * Z) : Prop :=
  let '(a1, b1, c1) := k1 in
  let '(a2, b2, c2) := k2 in
  a1 < a2 ∨ (a1 = a2 ∧ (b1 < b2 ∨ (b1 = b2 ∧ c1 < c2))).

End DoubleOrder.

(** ** Sample objects, to run the model on *)

(** The 2 x 2 grid built by [DataGrid(4)] and the [Modes] built by
    [Modes(1)]. *)
Definition grid_2x2 : DataGrid.obj :=
  DataGrid.mk 0 2 2 (replicate 4 complex_zero).
Definition modes_of_one : Modes.obj :=
  Modes.mk 0 0 (replicate 1 complex_zero).

(** A stand-in implementation of the three conversions, to run [Modes_pow]
    on: grids and modes filled with zeros of the requested shape. *)
Definition zero_fill_transforms : Transforms := {|
  DataGrid_of_Modes m N_theta N_phi :=
    mret (DataGrid.mk (Modes.Spin m) N_theta N_phi
            (replicate (Z.to_nat (N_theta * N_phi)) complex_zero));
  Modes_of_DataGrid g L :=
    mret (Modes.mk (DataGrid.Spin g) L []);
  DataGrid_pow g p :=
    mret (DataGrid.SetSpin g (DataGrid.Spin g * p)) |}.

(** Four bins at 0, 10, 20 and 30 Hz. *)
Definition four_bins : WaveformAtAPointFT.obj :=
  WaveformAtAPointFT.mk 0.5%float 0%float 0%float
    [1%float; 2%float; 3%float; 4%float]
    [0%float; 5%float; 6%float; 7%float]
    [0%float; 10%float; 20%float; 30%float]
    false.

(** Three bins, 1 Hz apart, not yet normalized. *)
Definition three_bins : WaveformAtAPointFT.obj :=
  WaveformAtAPointFT.mk 0.5%float 0%float 0%float
    [1%float; 1%float; 1%float]
    [1%float; 0%float; 0%float]
    [0%float; 1%float; 2%float]
    false.

(** Three bins on the same frequencies as [three_bins], other values. *)
Definition three_bins_shifted : WaveformAtAPointFT.obj :=
  WaveformAtAPointFT.mk 0.5%float 0%float 0%float
    [2%float; 0%float; 1%float]
    [1%float; 3%float; 0%float]
    [0%float; 1%float; 2%float]
    false.

(** A single bin. *)
Definition one_bin : WaveformAtAPointFT.obj :=
  WaveformAtAPointFT.mk 0.5%float 0%float 0%float
    [1%float] [0%float] [0%float] false.

(** A noise-curve collaborator that knows no detector, and an FFT
    collaborator that keeps the data in a list of interleaved real and
    imaginary parts and transforms nothing. *)
Definition unknown_detector : WaveformAtAPointFT.NoiseCurves := {|
  WaveformAtAPointFT.InverseNoiseCurve F Detector :=
    ("Unknown detector", Throws GWFrames_NotYetImplemented) |}.
Definition no_fft : WaveformAtAPointFT.FFT := {|
  WaveformAtAPointFT.WrapVecDoub := list float;
  WaveformAtAPointFT.WrapVecDoub_new n := mret (replicate (Z.to_nat n) 0%float);
  WaveformAtAPointFT.wv_real data i := vec_get data (Z.to_nat (2 * i));
  WaveformAtAPointFT.wv_imag data i := vec_get data (Z.to_nat (2 * i + 1));
  WaveformAtAPointFT.wv_set_real data i x := vec_set data (Z.to_nat (2 * i)) x;
  WaveformAtAPointFT.wv_set_imag data i x := vec_set data (Z.to_nat (2 * i + 1)) x;
  WaveformAtAPointFT.idft data := mret data;
  WaveformAtAPointFT.atan2 y x := 0%float;
  WaveformAtAPointFT.show_double x := "?" |}.

Definition modes_degree_one : Modes.obj :=
  Modes.mk 0 1 (replicate 4 complex_zero).


(** * Properties *)

(** ** The monad *)

Lemma append_empty_r (w : string) : w +:+ EmptyString = w.
Proof.
  induction w as [|c w IH]; [reflexivity|].
  change (String c (w +:+ EmptyString) = String c w). by rewrite IH.
Qed.

Lemma append_assoc (u v w : string) : (u +:+ v) +:+ w = u +:+ (v +:+ w).
Proof.
  induction u as [|c u IH]; [reflexivity|].
  change (String c ((u +:+ v) +:+ w) = String c (u +:+ (v +:+ w))).
  by rewrite IH.
Qed.

Lemma bind_ret {A B} (a : A) (k : A → M B) : (mret a ≫= k) = k a.
Proof. unfold mbind, M_bind, mret, M_ret, bind, ret. by destruct (k a). Qed.

Lemma bind_ret_r {A} (m : M A) : (m ≫= mret) = m.
Proof.
  unfold mbind, M_bind, mret, M_ret, bind, ret.
  destruct m as [w [a|e|]]; [|reflexivity..]. by rewrite append_empty_r.
Qed.

Lemma bind_assoc {A B C} (m : M A) (k : A → M B) (h : B → M C) :
  ((m ≫= k) ≫= h) = (m ≫= λ a, k a ≫= h).
Proof.
  unfold mbind, M_bind, bind.
  destruct m as [w [a|e|]]; [|reflexivity..].
  destruct (k a) as [w1 [b|e|]]; [|reflexivity..].
  destruct (h b) as [w2 r]. by rewrite append_assoc.
Qed.


(** A sequence that returns normally has run its first part normally. *)
Lemma bind_normal_inv {A B} (m : M A) (k : A → M B) w b :
  (m ≫= k) = (w, Normal b) →
  ∃ w1 a w2, m = (w1, Normal a) ∧ k a = (w2, Normal b) ∧ w = w1 +:+ w2.
Proof.
  unfold mbind, M_bind, bind. destruct m as [w1 [a|e|]]; [|discriminate..].
  destruct (k a) as [w2 r] eqn:Hk. intros [= <- ->]. by exists w1, a, w2.
Qed.

Lemma int_range_spec z : int_range z → int_rangeb z = true.
Proof.
  unfold int_range, int_rangeb. intros [Hlo Hhi].
  apply andb_true_iff. split; by apply Z.leb_le.
Qed.

Lemma int_add_in_range a b : int_range (a + b) → int_add a b = mret (a + b).
Proof. intros Hr. unfold int_add. by rewrite (int_range_spec _ Hr). Qed.

Lemma int_mul_in_range a b : int_range (a * b) → int_mul a b = mret (a * b).
Proof. intros Hr. unfold int_mul. by rewrite (int_range_spec _ Hr). Qed.

Lemma to_int_in_range z : int_range z → to_int z = z.
Proof.
  unfold int_range, INT_MIN, INT_MAX, to_int. intros Hr.
  rewrite Z.mod_small; lia.
Qed.

(** ** Shapes of [DataGrid] and [Modes] *)

Lemma DataGrid_copy_id (g : DataGrid.obj) : DataGrid.copy g = g.
Proof. by destruct g. Qed.

Lemma Modes_copy_id (m : Modes.obj) : Modes.copy m = m.
Proof. by destruct m. Qed.

Lemma DataGrid_of_size_square (n : Z) :
  0 ≤ n →
  DataGrid.of_size (n * n)
  = mret (DataGrid.mk 0 n n (replicate (Z.to_nat (n * n)) complex_zero)).
Proof.
  intros Hn. unfold DataGrid.of_size.
  destruct (Z.ltb_spec (n * n) 0) as [Hneg|_]; [nia|].
  replace (Z.sqrt (n * n)) with n; [reflexivity|].
  symmetry. by apply Z.sqrt_square.
Qed.

(** What the size constructors build, for any size they accept: a grid of
    [floor(sqrt(size))] points each way over [size] samples, and modes of
    degree 0 over [size] coefficients. *)
Lemma DataGrid_of_size_fields (size : Z) :
  0 ≤ size →
  ∃ g, DataGrid.of_size size = mret g
       ∧ DataGrid.N_theta g = Z.sqrt size ∧ DataGrid.N_phi g = Z.sqrt size
       ∧ Z.of_nat (length (DataGrid.data g)) = size.
Proof.
  intros Hsize. unfold DataGrid.of_size.
  destruct (Z.ltb_spec size 0) as [Hneg|_]; [lia|].
  eexists. split; [reflexivity|]. simpl. rewrite length_replicate.
  repeat split. lia.
Qed.

Lemma Modes_of_size_fields (size : Z) :
  0 ≤ size →
  ∃ m, Modes.of_size size = mret m
       ∧ Modes.EllMax m = 0
       ∧ Z.of_nat (length (Modes.data m)) = size.
Proof.
  intros Hsize. unfold Modes.of_size.
  destruct (Z.ltb_spec size 0) as [Hneg|_]; [lia|].
  eexists. split; [reflexivity|]. simpl. rewrite length_replicate.
  split; [reflexivity|lia].
Qed.

(** C5, as the code has it: the class keeps the sample count equal to
    [N_theta() * N_phi()] where it derives the dimensions itself, and
    leaves it to the caller elsewhere.  Construction from a perfect-square
    size [n*n] gives an [n] by [n] grid with [n*n] samples; copy
    construction and [SetSpin] keep the invariant; [SetNTheta] and
    [SetNPhi] overwrite the stored dimension and nothing else, so after
    them the invariant holds exactly when the new dimension times the other
    one is the number of stored samples (in particular when the dimension
    is set to its current value). *)
Theorem DataGrid_shape_where_it_holds :
  (∀ n, 0 ≤ n →
     ∃ g, DataGrid.of_size (n * n) = mret g ∧ DataGrid.shape_ok g
          ∧ DataGrid.N_theta g = n ∧ DataGrid.N_phi g = n)
  ∧ (∀ g, DataGrid.shape_ok g → DataGrid.shape_ok (DataGrid.copy g))
  ∧ (∀ g ess, DataGrid.shape_ok g → DataGrid.shape_ok (DataGrid.SetSpin g ess))
  ∧ (∀ g N, DataGrid.data (DataGrid.SetNTheta g N) = DataGrid.data g
            ∧ DataGrid.N_phi (DataGrid.SetNTheta g N) = DataGrid.N_phi g
            ∧ (DataGrid.shape_ok (DataGrid.SetNTheta g N)
               ↔ Z.of_nat (length (DataGrid.data g)) = N * DataGrid.N_phi g))
  ∧ (∀ g N, DataGrid.data (DataGrid.SetNPhi g N) = DataGrid.data g
            ∧ DataGrid.N_theta (DataGrid.SetNPhi g N) = DataGrid.N_theta g
            ∧ (DataGrid.shape_ok (DataGrid.SetNPhi g N)
               ↔ Z.of_nat (length (DataGrid.data g)) = DataGrid.N_theta g * N))
  ∧ (∀ g, DataGrid.shape_ok g →
          DataGrid.shape_ok (DataGrid.SetNTheta g (DataGrid.N_theta g))
          ∧ DataGrid.shape_ok (DataGrid.SetNPhi g (DataGrid.N_phi g))).
Proof.
  repeat split.
  - intros n Hn. eexists. split; [by apply DataGrid_of_size_square|].
    unfold DataGrid.shape_ok. simpl. rewrite length_replicate. repeat split. nia.
  - intros g. by rewrite DataGrid_copy_id.
  - intros g ess. by destruct g.
  - by destruct g.
  - by destruct g.
  - by destruct g.
  - by destruct g.
  - by destruct g.
  - by destruct g.
Qed.

Lemma DataGrid_shape_where_it_holds_witness :
  (∃ g, DataGrid.of_size (2 * 2) = mret g ∧ DataGrid.shape_ok g
        ∧ DataGrid.N_theta g = 2 ∧ DataGrid.N_phi g = 2)
  ∧ DataGrid.shape_ok (DataGrid.SetNTheta grid_2x2 (DataGrid.N_theta grid_2x2)).
Proof.
  destruct DataGrid_shape_where_it_holds as (Hsize & _ & _ & _ & _ & Hset).
  split.
  - apply Hsize. lia.
  - apply Hset. reflexivity.
Defined.

(** C5 as stated fails: [SetNTheta] does not preserve the shape invariant.
    [DataGrid(4)] is a 2 x 2 grid with four samples; after [SetNTheta(3)]
    it still has four samples and claims 3 x 2. *)
Lemma DataGrid_SetNTheta_breaks_shape :
  DataGrid.of_size 4 = mret grid_2x2
  ∧ DataGrid.shape_ok grid_2x2
  ∧ ¬ DataGrid.shape_ok (DataGrid.SetNTheta grid_2x2 3).
Proof.
  split; [reflexivity|]. split; [reflexivity|].
  unfold DataGrid.shape_ok. simpl. lia.
Qed.

(** C6, as the code has it: copy construction and [SetSpin] keep the
    invariant [size == (EllMax()+1)^2]; [SetEllMax] overwrites the stored
    degree and nothing else, so after [SetEllMax(ell)] the invariant holds
    exactly when [(ell+1)^2] is the number of stored coefficients (in
    particular when the degree is set to its current value). *)
Theorem Modes_shape_where_it_holds :
  (∀ m, Modes.shape_ok m → Modes.shape_ok (Modes.copy m))
  ∧ (∀ m ess, Modes.shape_ok m → Modes.shape_ok (Modes.SetSpin m ess))
  ∧ (∀ m ell, Modes.data (Modes.SetEllMax m ell) = Modes.data m
              ∧ Modes.Spin (Modes.SetEllMax m ell) = Modes.Spin m
              ∧ Modes.EllMax (Modes.SetEllMax m ell) = ell
              ∧ (Modes.shape_ok (Modes.SetEllMax m ell)
                 ↔ Z.of_nat (length (Modes.data m)) = (ell + 1) * (ell + 1)))
  ∧ (∀ m, Modes.shape_ok m → Modes.shape_ok (Modes.SetEllMax m (Modes.EllMax m))).
Proof.
  repeat split.
  - intros m. by rewrite Modes_copy_id.
  - by destruct m.
  - by destruct m.
  - by destruct m.
  - by destruct m.
Qed.

Lemma Modes_shape_where_it_holds_witness :
  Modes.shape_ok (Modes.copy modes_of_one)
  ∧ Modes.shape_ok (Modes.SetEllMax modes_of_one (Modes.EllMax modes_of_one)).
Proof.
  destruct Modes_shape_where_it_holds as (Hcopy & _ & _ & Hset).
  split.
  - apply Hcopy. reflexivity.
  - apply Hset. reflexivity.
Defined.

(** C6 as stated fails: [SetEllMax] does not preserve the shape invariant.
    [Modes(1)] has degree 0 and one coefficient; after [SetEllMax(1)] it
    still has one coefficient where degree 1 needs four. *)
Lemma Modes_SetEllMax_breaks_shape :
  Modes.of_size 1 = mret modes_of_one
  ∧ Modes.shape_ok modes_of_one
  ∧ ¬ Modes.shape_ok (Modes.SetEllMax modes_of_one 1).
Proof.
  split; [reflexivity|]. split; [reflexivity|].
  unfold Modes.shape_ok. simpl. lia.
Qed.

(** ** [Modes::pow] *)

Lemma pow_resolution_in_range (m : Modes.obj) (p : Z) :
  int_range (2 * Modes.EllMax m) →
  int_range (2 * Modes.EllMax m * p) →
  int_range (2 * Modes.EllMax m * p + 1) →
  pow_resolution m p = mret (2 * Modes.EllMax m * p + 1).
Proof.
  intros H2 Hp H1. unfold pow_resolution.
  rewrite (int_mul_in_range _ _ H2), bind_ret.
  rewrite (int_mul_in_range _ _ Hp), bind_ret.
  by apply int_add_in_range.
Qed.

(** C2: wherever the [int] expression [2*EllMax()*p+1] is defined,
    [m.pow(p)] is the round trip through the grid: a [DataGrid] built from
    [m] with [n_theta = n_phi = 2*ellMax*p + 1], its pointwise [p]-th
    power, and the conversion of that back to [Modes]; the resolution
    meets the sampling bound for bandwidth [ellMax*p]. *)
Theorem Modes_pow_round_trip `{Transforms} (m : Modes.obj) (p : Z) :
  int_range (2 * Modes.EllMax m) →
  int_range (2 * Modes.EllMax m * p) →
  int_range (2 * Modes.EllMax m * p + 1) →
  let N := 2 * Modes.EllMax m * p + 1 in
  Modes_pow m p
  = (grid ← DataGrid_of_Modes m N N;
     power ← DataGrid_pow grid p;
     Modes_of_DataGrid power (-1))
  ∧ 2 * (Modes.EllMax m * p) + 1 ≤ N.
Proof.
  intros H2 Hp H1 N. split; [|lia].
  unfold Modes_pow.
  rewrite (pow_resolution_in_range _ _ H2 Hp H1), !bind_ret.
  by rewrite Modes_copy_id.
Qed.

Lemma Modes_pow_round_trip_witness :
  let m := Modes.mk 0 2 (replicate 9 complex_zero) in
  @Modes_pow zero_fill_transforms m 3
  = (grid ← @DataGrid_of_Modes zero_fill_transforms m 13 13;
     power ← @DataGrid_pow zero_fill_transforms grid 3;
     @Modes_of_DataGrid zero_fill_transforms power (-1))
  ∧ 2 * (2 * 3) + 1 ≤ 13.
Proof.
  intros m.
  apply (@Modes_pow_round_trip zero_fill_transforms m 3);
    unfold int_range, INT_MIN, INT_MAX; simpl; lia.
Defined.

(** C2 as stated fails where [2*EllMax()*p+1] leaves the range of [int]:
    for a [Modes] of degree 1 over its four coefficients and [p = 2^30]
    the product [2*1*2^30] is not an [int]; the call has no defined result,
    and in particular it is not the round trip through a grid of
    [2*ellMax*p+1 = 2^31+1] points each way. *)
Lemma Modes_pow_overflow :
  let m := modes_degree_one in
  let p := 2 ^ 30 in
  let N := 2 * Modes.EllMax m * p + 1 in
  Modes.shape_ok m ∧ int_range p ∧ ¬ int_range N
  ∧ @Modes_pow zero_fill_transforms m p = undefined
  ∧ @Modes_pow zero_fill_transforms m p
    ≠ (grid ← @DataGrid_of_Modes zero_fill_transforms m N N;
       power ← @DataGrid_pow zero_fill_transforms grid p;
       @Modes_of_DataGrid zero_fill_transforms power (-1)).
Proof.
  intros m p N.
  assert (Hundef : @Modes_pow zero_fill_transforms m p = undefined)
    by reflexivity.
  split; [reflexivity|]. split; [by vm_compute|]. split.
  { unfold int_range, INT_MIN, INT_MAX, N, p, m. simpl. lia. }
  split; [exact Hundef|].
  rewrite Hundef. intros Heq.
  cbn [DataGrid_of_Modes DataGrid_pow Modes_of_DataGrid zero_fill_transforms] in Heq.
  rewrite !bind_ret in Heq. discriminate.
Qed.

(** ** [SliceOfScri::operator[]] *)

Lemma subscript_above_six {D} FILE LINE (S : SliceOfScri.obj D) (i : N) :
  (7 ≤ i)%N →
  SliceOfScri.subscript FILE LINE S i
  = (SliceOfScri.out_of_bounds_message FILE LINE i,
     Throws GWFrames_IndexOutOfBounds).
Proof.
  intros Hi. unfold SliceOfScri.subscript.
  repeat (match goal with
          | |- context [(i =? ?k)%N] =>
              destruct (N.eqb_spec i k) as [Heq|_]; [lia|]
          end).
  unfold mbind, M_bind, bind, cerr, throw.
  by rewrite append_empty_r.
Qed.

(** C4: both overloads of [operator[]] return [psi0], [psi1], [psi2],
    [psi3], [psi4], [sigma], [sigmadot] for [i = 0..6]; for every [i >= 7]
    they throw [GWFrames_IndexOutOfBounds] (after the diagnostic on
    [std::cerr]) and return no value. *)
Theorem SliceOfScri_subscript_cases {D} (FILE : string) (S : SliceOfScri.obj D) :
  (SliceOfScri.index_const FILE S 0 = mret (SliceOfScri.psi0 S)
   ∧ SliceOfScri.index_const FILE S 1 = mret (SliceOfScri.psi1 S)
   ∧ SliceOfScri.index_const FILE S 2 = mret (SliceOfScri.psi2 S)
   ∧ SliceOfScri.index_const FILE S 3 = mret (SliceOfScri.psi3 S)
   ∧ SliceOfScri.index_const FILE S 4 = mret (SliceOfScri.psi4 S)
   ∧ SliceOfScri.index_const FILE S 5 = mret (SliceOfScri.sigma S)
   ∧ SliceOfScri.index_const FILE S 6 = mret (SliceOfScri.sigmadot S))
  ∧ (SliceOfScri.index FILE S 0 = mret (SliceOfScri.psi0 S)
     ∧ SliceOfScri.index FILE S 1 = mret (SliceOfScri.psi1 S)
     ∧ SliceOfScri.index FILE S 2 = mret (SliceOfScri.psi2 S)
     ∧ SliceOfScri.index FILE S 3 = mret (SliceOfScri.psi3 S)
     ∧ SliceOfScri.index FILE S 4 = mret (SliceOfScri.psi4 S)
     ∧ SliceOfScri.index FILE S 5 = mret (SliceOfScri.sigma S)
     ∧ SliceOfScri.index FILE S 6 = mret (SliceOfScri.sigmadot S))
  ∧ ∀ i, (7 ≤ i)%N →
      SliceOfScri.index_const FILE S i
      = (SliceOfScri.out_of_bounds_message FILE 133 i,
         Throws GWFrames_IndexOutOfBounds)
      ∧ SliceOfScri.index FILE S i
        = (SliceOfScri.out_of_bounds_message FILE 143 i,
           Throws GWFrames_IndexOutOfBounds)
      ∧ (∀ w d, SliceOfScri.index_const FILE S i ≠ (w, Normal d))
      ∧ (∀ w d, SliceOfScri.index FILE S i ≠ (w, Normal d)).
Proof.
  split; [by repeat split|]. split; [by repeat split|].
  intros i Hi. unfold SliceOfScri.index_const, SliceOfScri.index.
  rewrite !(subscript_above_six _ _ _ _ Hi).
  repeat split; intros w d; discriminate.
Qed.

Lemma SliceOfScri_subscript_cases_witness :
  let S := SliceOfScri.mk 10%nat 11%nat 12%nat 13%nat 14%nat 15%nat 16%nat in
  SliceOfScri.index_const "Scri.hpp" S 7
  = (SliceOfScri.out_of_bounds_message "Scri.hpp" 133 7,
     Throws GWFrames_IndexOutOfBounds)
  ∧ SliceOfScri.index "Scri.hpp" S 7
    = (SliceOfScri.out_of_bounds_message "Scri.hpp" 143 7,
       Throws GWFrames_IndexOutOfBounds)
  ∧ (∀ w d, SliceOfScri.index_const "Scri.hpp" S 7 ≠ (w, Normal d))
  ∧ (∀ w d, SliceOfScri.index "Scri.hpp" S 7 ≠ (w, Normal d)).
Proof.
  intros S.
  destruct (SliceOfScri_subscript_cases "Scri.hpp" S) as (_ & _ & Hhigh).
  apply (Hhigh 7%N). lia.
Defined.

(** ** The disabled constructor of [WaveformAtAPointFT] *)

(** C7: whatever its arguments, the constructor taking [WindowNCycles],
    [Vartheta] and [Varphi] writes its notice, throws
    [GWFrames_NotYetImplemented] and yields no object. *)
Theorem old_constructor_not_yet_implemented {Waveform : Type}
    (W : Waveform) (Dt Vartheta Varphi TotalMass : float)
    (WindowNCycles : N) (DetectorResponseAmp DetectorResponsePhase : float)
    (ExtraZeroPadPowers : N) :
  let call :=
    WaveformAtAPointFT.old_constructor W Dt Vartheta Varphi TotalMass
      WindowNCycles DetectorResponseAmp DetectorResponsePhase
      ExtraZeroPadPowers in
  call = (WaveformAtAPointFT.disabled_message, Throws GWFrames_NotYetImplemented)
  ∧ ∀ w object, call ≠ (w, Normal object).
Proof.
  intros call. unfold call, WaveformAtAPointFT.old_constructor.
  unfold mbind, M_bind, bind, cerr, throw. rewrite append_empty_r.
  split; [reflexivity|]. intros w object. discriminate.
Qed.

(** ** [SuperMomenta] *)

(** C9: the constructor from a time vector and a vector of mode fields
    succeeds for every pair of vectors and stores both as they are;
    [NTimes()] then is the length of the time vector (narrowed to [int]),
    whatever the number of mode fields. *)
Theorem SuperMomenta_constructor_unchecked
    (T : list float) (psi : list Modes.obj) :
  ∃ S, SuperMomenta.of_T_psi T psi = mret S
       ∧ SuperMomenta.t S = T
       ∧ SuperMomenta.Psi S = psi
       ∧ SuperMomenta.NTimes S = to_int (Z.of_nat (length T))
       ∧ (Z.of_nat (length T) ≤ INT_MAX →
          SuperMomenta.NTimes S = Z.of_nat (length T)).
Proof.
  eexists. split; [reflexivity|]. simpl. repeat split.
  intros Hmax. unfold SuperMomenta.NTimes. simpl.
  apply to_int_in_range. unfold int_range, INT_MIN. lia.
Qed.

Lemma SuperMomenta_constructor_unchecked_witness :
  ∃ S, SuperMomenta.of_T_psi [0%float; 1%float; 2%float] [modes_of_one] = mret S
       ∧ length (SuperMomenta.t S) ≠ length (SuperMomenta.Psi S)
       ∧ SuperMomenta.NTimes S = 3.
Proof.
  destruct (SuperMomenta_constructor_unchecked
              [0%float; 1%float; 2%float] [modes_of_one])
    as (S & Hctor & Ht & HPsi & _ & Hn).
  exists S. split; [exact Hctor|]. split.
  - rewrite Ht, HPsi. simpl. lia.
  - apply Hn. unfold INT_MAX. simpl. lia.
Defined.

(** ** The class invariant of [WaveformAtAPointFT] *)

(** What every normally ending round of a loop preserves, the loop
    preserves. *)
Lemma for_loop_invariant {St} (P : St → Prop) (body : nat → St → M St) :
  (∀ i st w st', P st → body i st = (w, Normal st') → P st') →
  ∀ n k st w st', P st → for_loop body k n st = (w, Normal st') → P st'.
Proof.
  intros Hbody. induction n as [|n IH]; intros k st w st' HP Hrun.
  - by injection Hrun as _ <-.
  - cbn [for_loop] in Hrun.
    apply bind_normal_inv in Hrun as (w1 & st1 & w2 & Hfirst & Hrest & _).
    eapply IH; [|exact Hrest]. by eapply Hbody.
Qed.

Lemma vec_set_normal_inv {A} (v v' : list A) (i : nat) (x : A) (w : string) :
  vec_set v i x = (w, Normal v') → v' = <[i:=x]> v ∧ (i < length v)%nat.
Proof.
  unfold vec_set. destruct (decide (i < length v)%nat) as [Hi|Hi];
    [|discriminate]. by intros [= _ <-].
Qed.

Lemma store_body_bins freqs Dt_dimensionful RealT i this w this' :
  WaveformAtAPointFT.bins_are freqs this →
  WaveformAtAPointFT.store_body Dt_dimensionful RealT i this = (w, Normal this') →
  WaveformAtAPointFT.bins_are freqs this'.
Proof.
  intros [Hfreqs [Hre Him]] Hrun. unfold WaveformAtAPointFT.store_body in Hrun.
  apply bind_normal_inv in Hrun as (? & a & ? & _ & Hrun & _).
  apply bind_normal_inv in Hrun as (? & re' & ? & Hset_re & Hrun & _).
  apply bind_normal_inv in Hrun as (? & b & ? & _ & Hrun & _).
  apply bind_normal_inv in Hrun as (? & im' & ? & Hset_im & Hrun & _).
  injection Hrun as _ <-.
  apply vec_set_normal_inv in Hset_re as [-> _].
  apply vec_set_normal_inv in Hset_im as [-> _].
  unfold WaveformAtAPointFT.bins_are, WaveformAtAPointFT.well_formed, WaveformAtAPointFT.NFreq in *.
  simpl. by rewrite !length_insert.
Qed.

(** The constructor establishes the invariant: the object it leaves has
    one real and one imaginary part per frequency bin. *)
Lemma store_spectrum_well_formed this Dt_dimensionful RealT w W :
  WaveformAtAPointFT.store_spectrum this Dt_dimensionful RealT = (w, Normal W) →
  WaveformAtAPointFT.well_formed W
  ∧ WaveformAtAPointFT.mFreqs W = WaveformAtAPointFT.mFreqs this.
Proof.
  unfold WaveformAtAPointFT.store_spectrum.
  destruct (decide _) as [Hne|_].
  { intros Hrun. apply bind_normal_inv in Hrun as (? & ? & ? & _ & Hrun & _).
    discriminate. }
  intros Hrun.
  apply bind_normal_inv in Hrun as (? & W1 & ? & Hloop & Hrun & _).
  apply (for_loop_invariant (WaveformAtAPointFT.bins_are (WaveformAtAPointFT.mFreqs this))) in Hloop.
  - destruct Hloop as [Hfreqs [Hre Him]].
    apply bind_normal_inv in Hrun as (? & re' & ? & Hset_re & Hrun & _).
    apply bind_normal_inv in Hrun as (? & im' & ? & Hset_im & Hrun & _).
    apply bind_normal_inv in Hrun as (? & im'' & ? & Hset_im0 & Hrun & _).
    injection Hrun as _ <-.
    apply vec_set_normal_inv in Hset_re as [-> _].
    apply vec_set_normal_inv in Hset_im as [-> _].
    apply vec_set_normal_inv in Hset_im0 as [-> _].
    unfold WaveformAtAPointFT.well_formed, WaveformAtAPointFT.NFreq in *.
    simpl. by rewrite !length_insert.
  - intros i st w' st'. apply store_body_bins.
  - unfold WaveformAtAPointFT.bins_are, WaveformAtAPointFT.well_formed, WaveformAtAPointFT.NFreq.
    simpl. by rewrite !length_resize.
Qed.

(** [Normalize] keeps it. *)
Lemma Normalize_body_bins freqs snr i W w W' :
  WaveformAtAPointFT.bins_are freqs W →
  WaveformAtAPointFT.Normalize_body snr i W = (w, Normal W') →
  WaveformAtAPointFT.bins_are freqs W'.
Proof.
  intros [Hfreqs [Hre Him]] Hrun. unfold WaveformAtAPointFT.Normalize_body in Hrun.
  apply bind_normal_inv in Hrun as (? & a & ? & _ & Hrun & _).
  apply bind_normal_inv in Hrun as (? & re' & ? & Hset_re & Hrun & _).
  apply bind_normal_inv in Hrun as (? & b & ? & _ & Hrun & _).
  apply bind_normal_inv in Hrun as (? & im' & ? & Hset_im & Hrun & _).
  injection Hrun as _ <-.
  apply vec_set_normal_inv in Hset_re as [-> _].
  apply vec_set_normal_inv in Hset_im as [-> _].
  unfold WaveformAtAPointFT.bins_are, WaveformAtAPointFT.well_formed, WaveformAtAPointFT.NFreq in *.
  simpl. by rewrite !length_insert.
Qed.

Lemma Normalize_well_formed W InversePSD w W' :
  WaveformAtAPointFT.well_formed W →
  WaveformAtAPointFT.Normalize W InversePSD = (w, Normal W') →
  WaveformAtAPointFT.well_formed W'
  ∧ WaveformAtAPointFT.mFreqs W' = WaveformAtAPointFT.mFreqs W.
Proof.
  intros Hwf. unfold WaveformAtAPointFT.Normalize.
  destruct (WaveformAtAPointFT.mNormalized W).
  { by intros [= _ <-]. }
  intros Hrun.
  apply bind_normal_inv in Hrun as (? & snr & ? & _ & Hrun & _).
  apply bind_normal_inv in Hrun as (? & W1 & ? & Hloop & Hrun & _).
  injection Hrun as _ <-.
  apply (for_loop_invariant (WaveformAtAPointFT.bins_are (WaveformAtAPointFT.mFreqs W))) in Hloop.
  - destruct Hloop as [Hfreqs Hwf1]. by split.
  - intros i st w' st'. apply Normalize_body_bins.
  - by split.
Qed.

(** ** Comparisons of doubles *)

Lemma SFleb_not_SFltb (a b : spec_float) : SFleb a b = true → SFltb b a = false.
Proof.
  unfold SFleb, SFltb.
  destruct a as [sa|sa| |sa ma ea], b as [sb|sb| |sb mb eb]; simpl;
    try discriminate; try reflexivity;
    try (destruct sa; try destruct sb; (discriminate || reflexivity)).
  rewrite (Z.compare_antisym ea eb).
  change (PosDef.Pos.compare_cont Eq mb ma) with (Pos.compare mb ma).
  change (PosDef.Pos.compare_cont Eq ma mb) with (Pos.compare ma mb).
  rewrite (Pos.compare_antisym ma mb).
  destruct sa, sb, (ea ?= eb), (ma ?= mb)%positive; simpl;
    (discriminate || reflexivity).
Qed.

(** [x <= y] excludes [y < x]; with a NaN neither holds. *)
Lemma float_leb_not_ltb (x y : float) :
  (x <=? y)%float = true → (y <? x)%float = false.
Proof. rewrite leb_spec, ltb_spec. apply SFleb_not_SFltb. Qed.

(** ** [WaveformAtAPointFT::ZeroAbove] *)

Lemma vec_get_lookup {A} (v : list A) (i : nat) (x : A) :
  v !! i = Some x → vec_get v i = mret x.
Proof. intros Hx. unfold vec_get. by rewrite Hx. Qed.

Lemma vec_set_in_range {A} (v : list A) (i : nat) (x : A) :
  (i < length v)%nat → vec_set v i x = mret (<[i:=x]> v).
Proof. intros Hi. unfold vec_set. by rewrite decide_True. Qed.

Lemma vec_get_normal_inv {A} (v : list A) (i : nat) (x : A) (w : string) :
  vec_get v i = (w, Normal x) → v !! i = Some x.
Proof. unfold vec_get. destruct (v !! i); [by intros [= _ ->]|discriminate]. Qed.

Lemma take_S_insert {A} (v : list A) (k : nat) (x : A) :
  (k < length v)%nat → take (S k) (<[k:=x]> v) = take k v ++ [x].
Proof.
  intros Hk. rewrite (take_S_r _ k x) by by apply list_lookup_insert_eq.
  by rewrite take_insert_ge.
Qed.

(** One round on bin [k]. *)
Lemma ZeroAbove_body_round Frequency dt vt vp re im fr norm (k : nat) (x : float) :
  fr !! k = Some x → (k < length re)%nat → (k < length im)%nat →
  WaveformAtAPointFT.ZeroAbove_body Frequency k
    (WaveformAtAPointFT.mk dt vt vp re im fr norm)
  = mret (if (Frequency <? abs x)%float
          then WaveformAtAPointFT.mk dt vt vp
                 (<[k:=0%float]> re) (<[k:=0%float]> im) fr norm
          else WaveformAtAPointFT.mk dt vt vp re im fr norm).
Proof.
  intros Hx Hre Him.
  unfold WaveformAtAPointFT.ZeroAbove_body, WaveformAtAPointFT.F.
  cbn [WaveformAtAPointFT.mFreqs WaveformAtAPointFT.mRealF
         WaveformAtAPointFT.mImagF].
  rewrite (vec_get_lookup _ _ _ Hx), bind_ret.
  destruct (Frequency <? abs x)%float; [|reflexivity].
  by rewrite !vec_set_in_range, !bind_ret by lia.
Qed.

(** The loop, started at bin [k] with [n] bins to go: the bins below [k]
    are left as the loop finds them, the others end up as [zeroed_above]
    says. *)
Lemma ZeroAbove_loop Frequency dt vt vp fr norm (n : nat) :
  ∀ (k : nat) (re im : list float),
    (k + n)%nat = length fr → length re = length fr → length im = length fr →
    for_loop (WaveformAtAPointFT.ZeroAbove_body Frequency) k n
      (WaveformAtAPointFT.mk dt vt vp re im fr norm)
    = mret (WaveformAtAPointFT.mk dt vt vp
              (take k re ++ WaveformAtAPointFT.zeroed_above Frequency
                              (drop k fr) (drop k re))
              (take k im ++ WaveformAtAPointFT.zeroed_above Frequency
                              (drop k fr) (drop k im))
              fr norm).
Proof.
  induction n as [|n IH]; intros k re im Hk Hre Him.
  - simpl. rewrite !drop_ge, !take_ge by lia. simpl. by rewrite !app_nil_r.
  - destruct (lookup_lt_is_Some_2 fr k) as [x Hx]; [lia|].
    destruct (lookup_lt_is_Some_2 re k) as [y Hy]; [lia|].
    destruct (lookup_lt_is_Some_2 im k) as [z Hz]; [lia|].
    rewrite (drop_S fr x k Hx), (drop_S re y k Hy), (drop_S im z k Hz).
    cbn [for_loop].
    rewrite (ZeroAbove_body_round _ _ _ _ _ _ _ _ _ x Hx) by lia.
    rewrite bind_ret.
    unfold WaveformAtAPointFT.zeroed_above. cbn [zip_with].
    fold (WaveformAtAPointFT.zeroed_above Frequency).
    destruct (Frequency <? abs x)%float.
    + rewrite IH by (rewrite ?length_insert; lia).
      rewrite !take_S_insert by lia.
      rewrite !drop_insert_lt by lia.
      by rewrite <- !app_assoc.
    + rewrite IH by lia.
      rewrite (take_S_r re k y Hy), (take_S_r im k z Hz).
      by rewrite <- !app_assoc.
Qed.

(** On a well-formed object [ZeroAbove] returns, with the two value arrays
    replaced by their [zeroed_above] versions and nothing else changed. *)
Lemma ZeroAbove_returns (W : WaveformAtAPointFT.obj) (Frequency : float) :
  WaveformAtAPointFT.well_formed W →
  WaveformAtAPointFT.ZeroAbove W Frequency
  = mret (WaveformAtAPointFT.mk
            (WaveformAtAPointFT.mDt W) (WaveformAtAPointFT.mVartheta W)
            (WaveformAtAPointFT.mVarphi W)
            (WaveformAtAPointFT.zeroed_above Frequency
               (WaveformAtAPointFT.mFreqs W) (WaveformAtAPointFT.mRealF W))
            (WaveformAtAPointFT.zeroed_above Frequency
               (WaveformAtAPointFT.mFreqs W) (WaveformAtAPointFT.mImagF W))
            (WaveformAtAPointFT.mFreqs W) (WaveformAtAPointFT.mNormalized W)).
Proof.
  destruct W as [dt vt vp re im fr norm].
  unfold WaveformAtAPointFT.well_formed, WaveformAtAPointFT.ZeroAbove,
    WaveformAtAPointFT.NFreq. simpl. intros [Hre Him].
  by rewrite (ZeroAbove_loop Frequency dt vt vp fr norm (length fr) 0 re im).
Qed.

(** So [ZeroAbove] returns on every object the constructor leaves. *)
Lemma ZeroAbove_on_constructed this Dt_dimensionful RealT w W Frequency :
  WaveformAtAPointFT.store_spectrum this Dt_dimensionful RealT = (w, Normal W) →
  ∃ W', WaveformAtAPointFT.ZeroAbove W Frequency = mret W'.
Proof.
  intros Hctor. apply store_spectrum_well_formed in Hctor as [Hwf _].
  eexists. by apply ZeroAbove_returns.
Qed.

Lemma zeroed_above_length Frequency (fr v : list float) :
  length v = length fr →
  length (WaveformAtAPointFT.zeroed_above Frequency fr v) = length v.
Proof.
  intros Hlen. unfold WaveformAtAPointFT.zeroed_above.
  rewrite length_zip_with. lia.
Qed.

Lemma zeroed_above_lookup Frequency (fr v : list float) (f : nat) (x : float) :
  length v = length fr → fr !! f = Some x →
  ((Frequency <? abs x)%float = true →
   WaveformAtAPointFT.zeroed_above Frequency fr v !! f = Some 0%float)
  ∧ ((Frequency <? abs x)%float = false →
     WaveformAtAPointFT.zeroed_above Frequency fr v !! f = v !! f).
Proof.
  intros Hlen Hx.
  destruct (lookup_lt_is_Some_2 v f) as [y Hy].
  { rewrite Hlen. by eapply lookup_lt_Some. }
  unfold WaveformAtAPointFT.zeroed_above.
  rewrite lookup_zip_with, Hx, Hy. simpl.
  split; intros ->; done.
Qed.

(** C10: on an object whose arrays have one entry per bin, [ZeroAbove]
    returns the receiver with every bin whose frequency exceeds the
    threshold in magnitude set to zero in both parts, every bin whose
    frequency is at most the threshold (indeed every bin that fails the
    test, NaN included) left as it was, and the frequencies, the
    normalization flag, the angles and the time step untouched. *)
Theorem ZeroAbove_effect (W : WaveformAtAPointFT.obj) (Frequency : float) :
  WaveformAtAPointFT.well_formed W →
  ∃ W', WaveformAtAPointFT.ZeroAbove W Frequency = mret W'
    ∧ WaveformAtAPointFT.mFreqs W' = WaveformAtAPointFT.mFreqs W
    ∧ WaveformAtAPointFT.mNormalized W' = WaveformAtAPointFT.mNormalized W
    ∧ WaveformAtAPointFT.mVartheta W' = WaveformAtAPointFT.mVartheta W
    ∧ WaveformAtAPointFT.mVarphi W' = WaveformAtAPointFT.mVarphi W
    ∧ WaveformAtAPointFT.mDt W' = WaveformAtAPointFT.mDt W
    ∧ WaveformAtAPointFT.well_formed W'
    ∧ ∀ f x, WaveformAtAPointFT.mFreqs W !! f = Some x →
        ((Frequency <? abs x)%float = true →
         WaveformAtAPointFT.mRealF W' !! f = Some 0%float
         ∧ WaveformAtAPointFT.mImagF W' !! f = Some 0%float)
        ∧ ((abs x <=? Frequency)%float = true →
           WaveformAtAPointFT.mRealF W' !! f = WaveformAtAPointFT.mRealF W !! f
           ∧ WaveformAtAPointFT.mImagF W' !! f = WaveformAtAPointFT.mImagF W !! f)
        ∧ ((Frequency <? abs x)%float = false →
           WaveformAtAPointFT.mRealF W' !! f = WaveformAtAPointFT.mRealF W !! f
           ∧ WaveformAtAPointFT.mImagF W' !! f = WaveformAtAPointFT.mImagF W !! f).
Proof.
  intros Hwf. eexists. split; [by apply ZeroAbove_returns|].
  destruct Hwf as [Hre Him]. unfold WaveformAtAPointFT.NFreq in Hre, Him.
  cbn [WaveformAtAPointFT.mDt WaveformAtAPointFT.mVartheta
         WaveformAtAPointFT.mVarphi WaveformAtAPointFT.mFreqs
         WaveformAtAPointFT.mRealF WaveformAtAPointFT.mImagF
         WaveformAtAPointFT.mNormalized].
  do 5 (split; [reflexivity|]). split.
  - unfold WaveformAtAPointFT.well_formed, WaveformAtAPointFT.NFreq.
    cbn [WaveformAtAPointFT.mFreqs WaveformAtAPointFT.mRealF
           WaveformAtAPointFT.mImagF].
    by rewrite !zeroed_above_length.
  - intros f x Hx.
    destruct (zeroed_above_lookup Frequency _ _ f x Hre Hx) as [Hre1 Hre0].
    destruct (zeroed_above_lookup Frequency _ _ f x Him Hx) as [Him1 Him0].
    split; [|split].
    + intros Hgt. by split; [apply Hre1 | apply Him1].
    + intros Hle. apply float_leb_not_ltb in Hle.
      by split; [apply Hre0 | apply Him0].
    + intros Hngt. by split; [apply Hre0 | apply Him0].
Qed.

Lemma ZeroAbove_effect_witness :
  ∃ W', WaveformAtAPointFT.ZeroAbove four_bins 15%float = mret W'
    ∧ WaveformAtAPointFT.mFreqs W' = WaveformAtAPointFT.mFreqs four_bins
    ∧ WaveformAtAPointFT.mRealF W' !! 2%nat = Some 0%float
    ∧ WaveformAtAPointFT.mImagF W' !! 1%nat = Some 5%float.
Proof.
  destruct (ZeroAbove_effect four_bins 15%float) as
    (W' & Hrun & Hfreqs & _ & _ & _ & _ & _ & Hbins).
  { split; reflexivity. }
  exists W'. split; [exact Hrun|]. split; [exact Hfreqs|]. split.
  - destruct (Hbins 2%nat 20%float) as [Hzero _]; [reflexivity|].
    apply Hzero. reflexivity.
  - destruct (Hbins 1%nat 10%float) as (_ & Hkeep & _); [reflexivity|].
    rewrite (proj2 (Hkeep eq_refl)). reflexivity.
Defined.

(** ** [WaveformAtAPointFT::Normalize] *)

Lemma SNR_size_mismatch (W : WaveformAtAPointFT.obj) (InversePSD : list float) :
  WaveformAtAPointFT.NFreq W ≠ length InversePSD →
  WaveformAtAPointFT.SNR W InversePSD
  = (WaveformAtAPointFT.size_mismatch_message W InversePSD,
     Throws GWFrames_VectorSizeMismatch).
Proof.
  intros Hne. unfold WaveformAtAPointFT.SNR. rewrite decide_True by done.
  unfold mbind, M_bind, bind, cerr, throw. by rewrite append_empty_r.
Qed.

(** A call of [Normalize] that returns leaves the flag set. *)
Lemma Normalize_sets_flag (W W' : WaveformAtAPointFT.obj)
    (InversePSD : list float) (w : string) :
  WaveformAtAPointFT.Normalize W InversePSD = (w, Normal W') →
  WaveformAtAPointFT.IsNormalized W' = true.
Proof.
  unfold WaveformAtAPointFT.Normalize, WaveformAtAPointFT.IsNormalized.
  destruct (WaveformAtAPointFT.mNormalized W) eqn:Hflag.
  - by intros [= _ <-].
  - intros Hrun.
    apply bind_normal_inv in Hrun as (w1 & snr & w2 & _ & Hrun & _).
    apply bind_normal_inv in Hrun as (w3 & W'' & w4 & _ & Hrun & _).
    by injection Hrun as _ <-.
Qed.

(** C8: on an object whose flag is set, and so on every object that an
    earlier [Normalize] returned, [Normalize] returns the receiver as it
    is, writes nothing and throws nothing, whatever [InversePSD] is: also
    when its size differs from [NFreq()], where [SNR] itself throws
    [GWFrames_VectorSizeMismatch]. *)
Theorem Normalize_idempotent :
  (∀ W InversePSD,
     WaveformAtAPointFT.IsNormalized W = true →
     WaveformAtAPointFT.Normalize W InversePSD = mret W
     ∧ (WaveformAtAPointFT.NFreq W ≠ length InversePSD →
        WaveformAtAPointFT.SNR W InversePSD
        = (WaveformAtAPointFT.size_mismatch_message W InversePSD,
           Throws GWFrames_VectorSizeMismatch)))
  ∧ (∀ W0 InversePSD0 w W InversePSD,
       WaveformAtAPointFT.Normalize W0 InversePSD0 = (w, Normal W) →
       WaveformAtAPointFT.Normalize W InversePSD = mret W).
Proof.
  assert (Hflag : ∀ W InversePSD,
            WaveformAtAPointFT.IsNormalized W = true →
            WaveformAtAPointFT.Normalize W InversePSD = mret W).
  { intros W InversePSD HW. unfold WaveformAtAPointFT.Normalize.
    unfold WaveformAtAPointFT.IsNormalized in HW. by rewrite HW. }
  split.
  - intros W InversePSD HW. split; [by apply Hflag|]. apply SNR_size_mismatch.
  - intros W0 InversePSD0 w W InversePSD Hrun. apply Hflag.
    by eapply Normalize_sets_flag.
Qed.

Lemma Normalize_idempotent_witness :
  ∃ W, WaveformAtAPointFT.Normalize three_bins [1%float; 1%float; 1%float]
       = mret W
    ∧ WaveformAtAPointFT.mRealF W = [0.25%float; 0.25%float; 0.25%float]
    ∧ WaveformAtAPointFT.Normalize W [1%float] = mret W
    ∧ WaveformAtAPointFT.SNR W [1%float]
      = (WaveformAtAPointFT.size_mismatch_message W [1%float],
         Throws GWFrames_VectorSizeMismatch).
Proof.
  destruct Normalize_idempotent as [Hflag Hagain].
  eexists. split; [vm_compute; reflexivity|]. split; [reflexivity|]. split.
  - apply (Hagain three_bins [1%float; 1%float; 1%float] EmptyString).
    vm_compute. reflexivity.
  - apply Hflag; [reflexivity|]. vm_compute. discriminate.
Defined.

(** ** [MoreschiIteration] and its reference arguments *)


Lemma write_normal_inv σ r m w σ' :
  SuperMomenta.write σ r m = (w, Normal σ') →
  match r with
  | SuperMomenta.own_field i =>
      (i < length (SuperMomenta.Psi (SuperMomenta.receiver σ)))%nat
      ∧ σ' = SuperMomenta.Store
               (SuperMomenta.mk (SuperMomenta.t (SuperMomenta.receiver σ))
                  (<[i:=m]> (SuperMomenta.Psi (SuperMomenta.receiver σ))))
               (SuperMomenta.objects σ)
  | SuperMomenta.caller_object l =>
      (l < length (SuperMomenta.objects σ))%nat
      ∧ σ' = SuperMomenta.Store (SuperMomenta.receiver σ)
               (<[l:=m]> (SuperMomenta.objects σ))
  end.
Proof.
  unfold SuperMomenta.write. destruct r as [i|l]; intros Hrun;
    apply bind_normal_inv in Hrun as (? & v & ? & Hset & Hrun & _);
    apply vec_set_normal_inv in Hset as [-> Hin];
    by injection Hrun as _ <-.
Qed.

(** A call that completes has read its two arguments, obtained a
    corrected pair from them, and assigned the pair through the two
    references, [OneOverK] first. *)
Lemma MoreschiIteration_normal_inv BMSTransform solve OneOverK delta σ w u σ' :
  SuperMomenta.MoreschiIteration BMSTransform solve OneOverK delta σ
  = (w, Normal (u, σ')) →
  ∃ k d transformed k' d' σ1 w1 w2 w3 w4,
    SuperMomenta.read σ OneOverK = (w1, Normal k)
    ∧ SuperMomenta.read σ delta = (w2, Normal d)
    ∧ BMSTransform (SuperMomenta.receiver σ) k d = (w3, Normal transformed)
    ∧ solve transformed k d = (w4, Normal (k', d'))
    ∧ (∃ w5, SuperMomenta.write σ OneOverK k' = (w5, Normal σ1))
    ∧ (∃ w6, SuperMomenta.write σ1 delta d' = (w6, Normal σ'))
    ∧ u = tt.
Proof.
  intros Hrun. unfold SuperMomenta.MoreschiIteration in Hrun.
  apply bind_normal_inv in Hrun as (w1 & k & ? & Hk & Hrun & _).
  apply bind_normal_inv in Hrun as (w2 & d & ? & Hd & Hrun & _).
  apply bind_normal_inv in Hrun as (w3 & transformed & ? & HB & Hrun & _).
  apply bind_normal_inv in Hrun as (w4 & [k' d'] & ? & Hs & Hrun & _).
  apply bind_normal_inv in Hrun as (w5 & σ1 & ? & H1 & Hrun & _).
  apply bind_normal_inv in Hrun as (w6 & σ2 & ? & H2 & Hrun & _).
  injection Hrun as _ <- <-.
  exists k, d, transformed, k', d', σ1, w1, w2, w3, w4.
  repeat split; try done; by eexists.
Qed.

(** Given an element of the receiver's own series as [OneOverK], a call
    that completes has assigned the corrected [1/K] to that element. *)
Lemma MoreschiIteration_into_own_field BMSTransform solve (i l : nat) σ w u σ' :
  SuperMomenta.MoreschiIteration BMSTransform solve
    (SuperMomenta.own_field i) (SuperMomenta.caller_object l) σ
  = (w, Normal (u, σ')) →
  ∃ k d transformed w3 w4 k' d',
    SuperMomenta.Psi (SuperMomenta.receiver σ) !! i = Some k
    ∧ BMSTransform (SuperMomenta.receiver σ) k d = (w3, Normal transformed)
    ∧ solve transformed k d = (w4, Normal (k', d'))
    ∧ SuperMomenta.Psi (SuperMomenta.receiver σ')
      = <[i:=k']> (SuperMomenta.Psi (SuperMomenta.receiver σ)).
Proof.
  intros Hrun. apply MoreschiIteration_normal_inv in Hrun
    as (k & d & transformed & k' & d' & σ1 & w1 & w2 & w3 & w4
        & Hk & Hd & HB & Hs & [w5 H1] & [w6 H2] & _).
  apply vec_get_normal_inv in Hk.
  apply write_normal_inv in H1 as [_ ->]. apply write_normal_inv in H2 as [_ ->].
  by exists k, d, transformed, w3, w4, k', d'.
Qed.




(** * Further properties of the code *)

(** ** Doubles: order and product *)

Import DoubleOrder.

Lemma SFltb_key (x y : spec_float) :
  SFltb x y = true
  ↔ SF_is_nan x = false ∧ SF_is_nan y = false ∧ key_lt (SF_key x) (SF_key y).
Proof.
  unfold SFltb.
  destruct x as [sx|sx| |sx mx ex], y as [sy|sy| |sy my ey]; simpl;
    try (destruct sx); try (destruct sy); simpl;
    try (split; [discriminate | intros (? & ? & ?); (discriminate || lia)]);
    try (split; [intros _; repeat split; lia | reflexivity]).
  all: change (PosDef.Pos.compare_cont Eq mx my) with (Pos.compare mx my).
  all: destruct (Z.compare_spec ex ey); destruct (Pos.compare_spec mx my); simpl;
    (split; [ (discriminate || (intros _; repeat split; lia))
            | (reflexivity || (intros (_ & _ & ?); lia)) ]).
Qed.

Lemma SFleb_key (x y : spec_float) :
  SFleb x y = true
  ↔ SF_is_nan x = false ∧ SF_is_nan y = false
    ∧ (key_lt (SF_key x) (SF_key y) ∨ SF_key x = SF_key y).
Proof.
  unfold SFleb.
  destruct x as [sx|sx| |sx mx ex], y as [sy|sy| |sy my ey]; simpl;
    try (destruct sx); try (destruct sy); simpl;
    try (split; [discriminate
                | intros (? & ? & [?|?]); (discriminate || lia)]);
    try (split; [intros _; repeat split; ((left; lia) || (right; reflexivity))
                | reflexivity]).
  all: change (PosDef.Pos.compare_cont Eq mx my) with (Pos.compare mx my).
  all: destruct (Z.compare_spec ex ey); destruct (Pos.compare_spec mx my); simpl;
    (split; [ (discriminate
               || (intros _; repeat split; ((left; lia) || (right; congruence))))
            | (reflexivity
               || (intros (_ & _ & [?|Heq]); [lia | injection Heq; lia])) ]).
Qed.

(** [a <= b < c] gives [a < c]. *)
Lemma float_leb_ltb_trans (a b c : float) :
  (a <=? b)%float = true → (b <? c)%float = true → (a <? c)%float = true.
Proof.
  rewrite leb_spec, !ltb_spec, SFleb_key, !SFltb_key.
  destruct (SF_key (Prim2SF a)) as [[a1 a2] a3], (SF_key (Prim2SF b)) as [[b1 b2] b3],
    (SF_key (Prim2SF c)) as [[c1 c2] c3]. unfold key_lt.
  intros (Ha & Hb & Hab) (_ & Hc & Hbc). repeat split; try done.
  destruct Hab as [Hab|Hab]; [lia|]. injection Hab as -> -> ->. lia.
Qed.

(** [a < b <= c] gives [a < c]. *)
Lemma float_ltb_leb_trans (a b c : float) :
  (a <? b)%float = true → (b <=? c)%float = true → (a <? c)%float = true.
Proof.
  rewrite leb_spec, !ltb_spec, SFleb_key, !SFltb_key.
  destruct (SF_key (Prim2SF a)) as [[a1 a2] a3], (SF_key (Prim2SF b)) as [[b1 b2] b3],
    (SF_key (Prim2SF c)) as [[c1 c2] c3]. unfold key_lt.
  intros (Ha & Hb & Hab) (_ & Hc & Hbc). repeat split; try done.
  destruct Hbc as [Hbc|Hbc]; [lia|]. injection Hbc as <- <- <-. lia.
Qed.

Lemma float_ltb_trans (a b c : float) :
  (a <? b)%float = true → (b <? c)%float = true → (a <? c)%float = true.
Proof.
  rewrite !ltb_spec, !SFltb_key.
  destruct (SF_key (Prim2SF a)) as [[a1 a2] a3], (SF_key (Prim2SF b)) as [[b1 b2] b3],
    (SF_key (Prim2SF c)) as [[c1 c2] c3]. unfold key_lt.
  intros (Ha & Hb & Hab) (_ & Hc & Hbc). repeat split; try done. lia.
Qed.

(** If [m < a] and [b] is not above [m], then [b] is not above [a]. *)
Lemma float_ltb_raise (m a b : float) :
  (m <? a)%float = true → (m <? b)%float = false → (a <? b)%float = false.
Proof.
  intros Hma Hmb. destruct (a <? b)%float eqn:Hab; [|reflexivity].
  by rewrite (float_ltb_trans m a b Hma Hab) in Hmb.
Qed.

Lemma SFmul_comm (prec emax : Z) (x y : spec_float) :
  SFmul prec emax x y = SFmul prec emax y x.
Proof.
  destruct x as [sx|sx| |sx mx ex], y as [sy|sy| |sy my ey]; simpl;
    rewrite ?(xorb_comm sx sy); try reflexivity.
  by rewrite (Pos.mul_comm mx my), (Z.add_comm ex ey).
Qed.

Lemma float_mul_comm (x y : float) : (x * y)%float = (y * x)%float.
Proof. apply Prim2SF_inj. rewrite !mul_spec. apply SFmul_comm. Qed.

(** ** [InnerProduct] and [SNR] *)

Lemma for_loop_ext {St} (body1 body2 : nat → St → M St) :
  (∀ i st, body1 i st = body2 i st) →
  ∀ n k st, for_loop body1 k n st = for_loop body2 k n st.
Proof.
  intros Hext. induction n as [|n IH]; intros k st; [reflexivity|].
  cbn [for_loop]. rewrite Hext. unfold mbind, M_bind, bind.
  destruct (body2 k st) as [w [a|e|]]; [|reflexivity..]. by rewrite IH.
Qed.

Lemma SNR_body_self W psd i acc :
  WaveformAtAPointFT.SNR_body W psd i acc
  = WaveformAtAPointFT.InnerProduct_body W W psd i acc.
Proof.
  unfold WaveformAtAPointFT.SNR_body, WaveformAtAPointFT.InnerProduct_body,
    WaveformAtAPointFT.Re, WaveformAtAPointFT.Im, vec_get.
  destruct (WaveformAtAPointFT.mRealF W !! i),
    (WaveformAtAPointFT.mImagF W !! i), (psd !! i); reflexivity.
Qed.

Lemma SNR_as_InnerProduct W psd :
  WaveformAtAPointFT.SNR W psd
  = WaveformAtAPointFT.InnerProduct W W psd ≫= λ x, mret (sqrt x).
Proof.
  unfold WaveformAtAPointFT.SNR, WaveformAtAPointFT.InnerProduct.
  rewrite (decide_False (P := WaveformAtAPointFT.NFreq W ≠ WaveformAtAPointFT.NFreq W))
    by (intros Hne; by apply Hne).
  destruct (decide (WaveformAtAPointFT.NFreq W ≠ length psd)) as [Hne|Heq];
    [reflexivity|].
  rewrite (for_loop_ext _ _ (SNR_body_self W psd)).
  destruct (for_loop _ _ _ _) as [w [total|e|]]; [|reflexivity..].
  unfold WaveformAtAPointFT.F, vec_get.
  destruct (WaveformAtAPointFT.mFreqs W !! 1%nat) as [f1|];
    [|unfold mbind, M_bind, bind, undefined; by rewrite !append_empty_r].
  destruct (WaveformAtAPointFT.mFreqs W !! 0%nat) as [f0|];
    unfold mbind, M_bind, bind, undefined, mret, M_ret, ret;
    by rewrite !append_empty_r.
Qed.

Lemma inner_terms_lookup re bre im bim psd (i : nat) a b c d w :
  re !! i = Some a → bre !! i = Some b → im !! i = Some c →
  bim !! i = Some d → psd !! i = Some w →
  WaveformAtAPointFT.inner_terms re bre im bim psd !! i
  = Some ((a * b + c * d) * w)%float.
Proof.
  intros Ha Hb Hc Hd Hw. unfold WaveformAtAPointFT.inner_terms.
  rewrite !lookup_zip_with, Ha, Hb, Hc, Hd, Hw. reflexivity.
Qed.

Lemma inner_terms_length re bre im bim psd (n : nat) :
  length re = n → length bre = n → length im = n → length bim = n →
  length psd = n →
  length (WaveformAtAPointFT.inner_terms re bre im bim psd) = n.
Proof.
  intros. unfold WaveformAtAPointFT.inner_terms. rewrite !length_zip_with. lia.
Qed.

Lemma InnerProduct_body_round W B psd (i : nat) acc a b c d w :
  WaveformAtAPointFT.mRealF W !! i = Some a →
  WaveformAtAPointFT.mRealF B !! i = Some b →
  WaveformAtAPointFT.mImagF W !! i = Some c →
  WaveformAtAPointFT.mImagF B !! i = Some d →
  psd !! i = Some w →
  WaveformAtAPointFT.InnerProduct_body W B psd i acc
  = mret (acc + (a * b + c * d) * w)%float.
Proof.
  intros Ha Hb Hc Hd Hw.
  unfold WaveformAtAPointFT.InnerProduct_body,
    WaveformAtAPointFT.Re, WaveformAtAPointFT.Im.
  by rewrite (vec_get_lookup _ _ _ Ha), bind_ret, (vec_get_lookup _ _ _ Hb), bind_ret,
    (vec_get_lookup _ _ _ Hc), bind_ret, (vec_get_lookup _ _ _ Hd), bind_ret,
    (vec_get_lookup _ _ _ Hw), !bind_ret.
Qed.

(** The summation loop, started at bin [k] with [n] bins to go, adds the
    remaining summands to its accumulator. *)
Lemma InnerProduct_loop W B psd (n : nat) :
  WaveformAtAPointFT.well_formed W → WaveformAtAPointFT.well_formed B →
  WaveformAtAPointFT.NFreq B = WaveformAtAPointFT.NFreq W →
  length psd = WaveformAtAPointFT.NFreq W →
  ∀ (k : nat) (acc : float),
    (k + n)%nat = WaveformAtAPointFT.NFreq W →
    for_loop (WaveformAtAPointFT.InnerProduct_body W B psd) k n acc
    = mret (fold_left (λ acc x, (acc + x)%float)
              (drop k (WaveformAtAPointFT.inner_terms
                         (WaveformAtAPointFT.mRealF W) (WaveformAtAPointFT.mRealF B)
                         (WaveformAtAPointFT.mImagF W) (WaveformAtAPointFT.mImagF B)
                         psd))
              acc).
Proof.
  intros [HreW HimW] [HreB HimB] HB Hpsd.
  induction n as [|n IH]; intros k acc Hk.
  - rewrite drop_ge; [reflexivity|].
    rewrite (inner_terms_length _ _ _ _ _ (WaveformAtAPointFT.NFreq W)); lia.
  - destruct (lookup_lt_is_Some_2 (WaveformAtAPointFT.mRealF W) k) as [a Ha]; [lia|].
    destruct (lookup_lt_is_Some_2 (WaveformAtAPointFT.mRealF B) k) as [b Hb]; [lia|].
    destruct (lookup_lt_is_Some_2 (WaveformAtAPointFT.mImagF W) k) as [c Hc]; [lia|].
    destruct (lookup_lt_is_Some_2 (WaveformAtAPointFT.mImagF B) k) as [d Hd]; [lia|].
    destruct (lookup_lt_is_Some_2 psd k) as [w Hw]; [lia|].
    rewrite (drop_S _ _ k (inner_terms_lookup _ _ _ _ _ _ _ _ _ _ _ Ha Hb Hc Hd Hw)).
    cbn [for_loop fold_left].
    rewrite (InnerProduct_body_round _ _ _ _ _ _ _ _ _ _ Ha Hb Hc Hd Hw), bind_ret.
    apply IH. lia.
Qed.

(** Where the sizes agree, [InnerProduct] is the frequency step times the
    sum of the summands. *)
Lemma InnerProduct_after_loop W B psd :
  WaveformAtAPointFT.well_formed W → WaveformAtAPointFT.well_formed B →
  WaveformAtAPointFT.NFreq B = WaveformAtAPointFT.NFreq W →
  length psd = WaveformAtAPointFT.NFreq W →
  WaveformAtAPointFT.InnerProduct W B psd
  = (f1 ← WaveformAtAPointFT.F W 1;
     f0 ← WaveformAtAPointFT.F W 0;
     mret (4 * (f1 - f0)
           * WaveformAtAPointFT.float_sum
               (WaveformAtAPointFT.inner_terms
                  (WaveformAtAPointFT.mRealF W) (WaveformAtAPointFT.mRealF B)
                  (WaveformAtAPointFT.mImagF W) (WaveformAtAPointFT.mImagF B)
                  psd))%float).
Proof.
  intros HW HB HnB Hpsd. unfold WaveformAtAPointFT.InnerProduct.
  rewrite decide_False by (intros Hne; apply Hne; by symmetry).
  rewrite decide_False by (intros Hne; apply Hne; by symmetry).
  rewrite (InnerProduct_loop W B psd _ HW HB HnB Hpsd 0) by reflexivity.
  by rewrite bind_ret.
Qed.

Lemma SNR_returns W psd :
  WaveformAtAPointFT.well_formed W →
  length psd = WaveformAtAPointFT.NFreq W →
  (2 ≤ WaveformAtAPointFT.NFreq W)%nat →
  ∃ snr, WaveformAtAPointFT.SNR W psd = mret snr.
Proof.
  intros HW Hpsd Htwo.
  destruct (lookup_lt_is_Some_2 (WaveformAtAPointFT.mFreqs W) 0) as [f0 Hf0];
    [unfold WaveformAtAPointFT.NFreq in Htwo; lia|].
  destruct (lookup_lt_is_Some_2 (WaveformAtAPointFT.mFreqs W) 1) as [f1 Hf1];
    [unfold WaveformAtAPointFT.NFreq in Htwo; lia|].
  eexists. rewrite SNR_as_InnerProduct.
  rewrite (InnerProduct_after_loop W W psd HW HW eq_refl Hpsd).
  unfold WaveformAtAPointFT.F.
  by rewrite (vec_get_lookup _ _ _ Hf1), bind_ret, (vec_get_lookup _ _ _ Hf0), !bind_ret.
Qed.

(** [InnerProduct] checks the two sizes in turn and throws
    [GWFrames_VectorSizeMismatch] on the first that differs, naming the
    sizes; whenever it returns a value, the two waveforms and the noise
    spectrum had the same number of bins, and at least two. *)
Theorem InnerProduct_size_checks W B InversePSD :
  (WaveformAtAPointFT.NFreq W ≠ WaveformAtAPointFT.NFreq B →
   WaveformAtAPointFT.InnerProduct W B InversePSD
   = (WaveformAtAPointFT.nfreq_mismatch_message W B,
      Throws GWFrames_VectorSizeMismatch))
  ∧ (WaveformAtAPointFT.NFreq W = WaveformAtAPointFT.NFreq B →
     WaveformAtAPointFT.NFreq W ≠ length InversePSD →
     WaveformAtAPointFT.InnerProduct W B InversePSD
     = (WaveformAtAPointFT.size_mismatch_message W InversePSD,
        Throws GWFrames_VectorSizeMismatch))
  ∧ (∀ w x,
       WaveformAtAPointFT.InnerProduct W B InversePSD = (w, Normal x) →
       WaveformAtAPointFT.NFreq W = WaveformAtAPointFT.NFreq B
       ∧ WaveformAtAPointFT.NFreq W = length InversePSD
       ∧ (2 ≤ WaveformAtAPointFT.NFreq W)%nat).
Proof.
  unfold WaveformAtAPointFT.InnerProduct. split; [|split].
  - intros Hne. rewrite decide_True by done.
    unfold mbind, M_bind, bind, cerr, throw. by rewrite append_empty_r.
  - intros Heq Hne. rewrite decide_False by (intros Hne'; by apply Hne').
    rewrite decide_True by done.
    unfold mbind, M_bind, bind, cerr, throw. by rewrite append_empty_r.
  - intros w x Hrun.
    destruct (decide (WaveformAtAPointFT.NFreq W ≠ WaveformAtAPointFT.NFreq B))
      as [|HB]; [discriminate|].
    destruct (decide (WaveformAtAPointFT.NFreq W ≠ length InversePSD))
      as [|Hpsd]; [discriminate|].
    apply bind_normal_inv in Hrun as (? & total & ? & _ & Hrun & _).
    apply bind_normal_inv in Hrun as (? & f1 & ? & Hf1 & _ & _).
    apply vec_get_normal_inv, lookup_lt_Some in Hf1.
    split; [|split].
    + by destruct (decide (WaveformAtAPointFT.NFreq W = WaveformAtAPointFT.NFreq B)).
    + by destruct (decide (WaveformAtAPointFT.NFreq W = length InversePSD)).
    + unfold WaveformAtAPointFT.NFreq. lia.
Qed.

Lemma InnerProduct_size_checks_witness :
  WaveformAtAPointFT.InnerProduct three_bins four_bins [1%float; 1%float; 1%float]
  = (WaveformAtAPointFT.nfreq_mismatch_message three_bins four_bins,
     Throws GWFrames_VectorSizeMismatch)
  ∧ WaveformAtAPointFT.InnerProduct three_bins three_bins [1%float]
    = (WaveformAtAPointFT.size_mismatch_message three_bins [1%float],
       Throws GWFrames_VectorSizeMismatch)
  ∧ (2 ≤ WaveformAtAPointFT.NFreq three_bins)%nat.
Proof.
  split; [|split].
  - apply (InnerProduct_size_checks three_bins four_bins). vm_compute. discriminate.
  - apply (InnerProduct_size_checks three_bins three_bins); [reflexivity|].
    vm_compute. discriminate.
  - eapply (InnerProduct_size_checks three_bins three_bins
              [1%float; 1%float; 1%float]).
    vm_compute. reflexivity.
Defined.

(** On well-formed waveforms with matching sizes and at least two bins,
    [InnerProduct] returns four times the frequency step of the receiver
    times the sum, from the first bin on, of
    [(Re*B.Re + Im*B.Im) * InversePSD]. *)
Theorem InnerProduct_value W B InversePSD :
  WaveformAtAPointFT.well_formed W → WaveformAtAPointFT.well_formed B →
  WaveformAtAPointFT.NFreq B = WaveformAtAPointFT.NFreq W →
  length InversePSD = WaveformAtAPointFT.NFreq W →
  (2 ≤ WaveformAtAPointFT.NFreq W)%nat →
  ∃ f0 f1,
    WaveformAtAPointFT.mFreqs W !! 0%nat = Some f0
    ∧ WaveformAtAPointFT.mFreqs W !! 1%nat = Some f1
    ∧ WaveformAtAPointFT.InnerProduct W B InversePSD
      = mret (4 * (f1 - f0)
              * WaveformAtAPointFT.float_sum
                  (WaveformAtAPointFT.inner_terms
                     (WaveformAtAPointFT.mRealF W) (WaveformAtAPointFT.mRealF B)
                     (WaveformAtAPointFT.mImagF W) (WaveformAtAPointFT.mImagF B)
                     InversePSD))%float.
Proof.
  intros HW HB HnB Hpsd Htwo.
  destruct (lookup_lt_is_Some_2 (WaveformAtAPointFT.mFreqs W) 0) as [f0 Hf0];
    [unfold WaveformAtAPointFT.NFreq in Htwo; lia|].
  destruct (lookup_lt_is_Some_2 (WaveformAtAPointFT.mFreqs W) 1) as [f1 Hf1];
    [unfold WaveformAtAPointFT.NFreq in Htwo; lia|].
  exists f0, f1. split; [exact Hf0|]. split; [exact Hf1|].
  rewrite (InnerProduct_after_loop W B InversePSD HW HB HnB Hpsd).
  unfold WaveformAtAPointFT.F.
  by rewrite (vec_get_lookup _ _ _ Hf1), bind_ret, (vec_get_lookup _ _ _ Hf0), bind_ret.
Qed.

Lemma InnerProduct_value_witness :
  WaveformAtAPointFT.InnerProduct three_bins three_bins_shifted
    [1%float; 0.5%float; 2%float]
  = mret 20%float.
Proof.
  destruct (InnerProduct_value three_bins three_bins_shifted
              [1%float; 0.5%float; 2%float])
    as (f0 & f1 & Hf0 & Hf1 & Hrun);
    [split; reflexivity | split; reflexivity | reflexivity | reflexivity
    | vm_compute; lia |].
  rewrite Hrun. injection Hf0 as <-. injection Hf1 as <-.
  vm_compute. reflexivity.
Defined.

(** [SNR] is the square root of the inner product of the waveform with
    itself: the same value, the same exception and diagnostic, the same
    undefined cases, for every waveform and every noise spectrum. *)
Theorem SNR_root_of_self_InnerProduct W InversePSD :
  WaveformAtAPointFT.SNR W InversePSD
  = WaveformAtAPointFT.InnerProduct W W InversePSD ≫= λ x, mret (sqrt x).
Proof. apply SNR_as_InnerProduct. Qed.

(** With matching sizes but fewer than two bins, the frequency step
    [F(1)-F(0)] is read outside the frequency array: [InnerProduct] and
    [SNR] have no defined result, and neither has [Normalize] on a
    waveform that is not yet normalized. *)
Theorem below_two_bins_undefined W InversePSD :
  WaveformAtAPointFT.well_formed W →
  length InversePSD = WaveformAtAPointFT.NFreq W →
  (WaveformAtAPointFT.NFreq W ≤ 1)%nat →
  WaveformAtAPointFT.InnerProduct W W InversePSD = undefined
  ∧ WaveformAtAPointFT.SNR W InversePSD = undefined
  ∧ (WaveformAtAPointFT.IsNormalized W = false →
     WaveformAtAPointFT.Normalize W InversePSD = undefined).
Proof.
  intros HW Hpsd Hfew.
  assert (HIP : WaveformAtAPointFT.InnerProduct W W InversePSD = undefined).
  { rewrite (InnerProduct_after_loop W W InversePSD HW HW eq_refl Hpsd).
    unfold WaveformAtAPointFT.F, vec_get.
    rewrite (lookup_ge_None_2 (WaveformAtAPointFT.mFreqs W) 1); [reflexivity|].
    unfold WaveformAtAPointFT.NFreq in Hfew. lia. }
  assert (HSNR : WaveformAtAPointFT.SNR W InversePSD = undefined).
  { by rewrite SNR_as_InnerProduct, HIP. }
  repeat split; [exact HIP | exact HSNR |].
  intros Hflag. unfold WaveformAtAPointFT.Normalize.
  unfold WaveformAtAPointFT.IsNormalized in Hflag. by rewrite Hflag, HSNR.
Qed.

Lemma below_two_bins_undefined_witness :
  WaveformAtAPointFT.SNR one_bin [1%float] = undefined
  ∧ WaveformAtAPointFT.Normalize one_bin [1%float] = undefined.
Proof.
  destruct (below_two_bins_undefined one_bin [1%float]) as (_ & HSNR & HN);
    [split; reflexivity | reflexivity | vm_compute; lia |].
  split; [exact HSNR|]. apply HN. reflexivity.
Defined.

Lemma InnerProduct_body_sym W B psd (i : nat) acc :
  WaveformAtAPointFT.InnerProduct_body W B psd i acc
  = WaveformAtAPointFT.InnerProduct_body B W psd i acc.
Proof.
  destruct (WaveformAtAPointFT.mRealF W !! i) as [a|] eqn:Ha,
    (WaveformAtAPointFT.mRealF B !! i) as [b|] eqn:Hb,
    (WaveformAtAPointFT.mImagF W !! i) as [c|] eqn:Hc,
    (WaveformAtAPointFT.mImagF B !! i) as [d|] eqn:Hd,
    (psd !! i) as [w|] eqn:Hw;
    first
      [ rewrite (InnerProduct_body_round W B psd i acc a b c d w Ha Hb Hc Hd Hw),
          (InnerProduct_body_round B W psd i acc b a d c w Hb Ha Hd Hc Hw);
        by rewrite (float_mul_comm a b), (float_mul_comm c d)
      | unfold WaveformAtAPointFT.InnerProduct_body, WaveformAtAPointFT.Re,
          WaveformAtAPointFT.Im, vec_get;
        rewrite ?Ha, ?Hb, ?Hc, ?Hd, ?Hw; reflexivity ].
Qed.

(** [InnerProduct] takes the frequency step from the receiver only.
    Between two waveforms with the same number of bins and the same first
    two frequencies it is symmetric: [A.InnerProduct(B, psd)] and
    [B.InnerProduct(A, psd)] end the same way with the same value. *)
Theorem InnerProduct_symmetric A B InversePSD :
  WaveformAtAPointFT.NFreq A = WaveformAtAPointFT.NFreq B →
  WaveformAtAPointFT.mFreqs A !! 0%nat = WaveformAtAPointFT.mFreqs B !! 0%nat →
  WaveformAtAPointFT.mFreqs A !! 1%nat = WaveformAtAPointFT.mFreqs B !! 1%nat →
  WaveformAtAPointFT.InnerProduct A B InversePSD
  = WaveformAtAPointFT.InnerProduct B A InversePSD.
Proof.
  intros Hn H0 H1. unfold WaveformAtAPointFT.InnerProduct.
  rewrite (decide_False (P := WaveformAtAPointFT.NFreq A ≠ WaveformAtAPointFT.NFreq B))
    by (intros Hne; by apply Hne).
  rewrite (decide_False (P := WaveformAtAPointFT.NFreq B ≠ WaveformAtAPointFT.NFreq A))
    by (intros Hne; by apply Hne).
  unfold WaveformAtAPointFT.size_mismatch_message, WaveformAtAPointFT.F, vec_get.
  rewrite <- Hn, <- H0, <- H1.
  destruct (decide _) as [Hne|Heq]; [reflexivity|].
  by rewrite (for_loop_ext _ _ (InnerProduct_body_sym A B InversePSD)).
Qed.

Lemma InnerProduct_symmetric_witness :
  WaveformAtAPointFT.InnerProduct three_bins three_bins_shifted
    [1%float; 0.5%float; 2%float]
  = WaveformAtAPointFT.InnerProduct three_bins_shifted three_bins
      [1%float; 0.5%float; 2%float].
Proof.
  apply (InnerProduct_symmetric three_bins three_bins_shifted); reflexivity.
Defined.

(** ** [Normalize] on a waveform that is not yet normalized *)

Lemma Normalize_body_round snr dt vt vp re im fr norm (k : nat) (x y : float) :
  re !! k = Some x → im !! k = Some y →
  WaveformAtAPointFT.Normalize_body snr k
    (WaveformAtAPointFT.mk dt vt vp re im fr norm)
  = mret (WaveformAtAPointFT.mk dt vt vp
            (<[k:=(x / snr)%float]> re) (<[k:=(y / snr)%float]> im) fr norm).
Proof.
  intros Hx Hy. unfold WaveformAtAPointFT.Normalize_body.
  cbn [WaveformAtAPointFT.mRealF WaveformAtAPointFT.mImagF].
  rewrite (vec_get_lookup _ _ _ Hx), bind_ret.
  rewrite vec_set_in_range, bind_ret by by eapply lookup_lt_Some.
  cbn [WaveformAtAPointFT.mRealF WaveformAtAPointFT.mImagF].
  rewrite (vec_get_lookup _ _ _ Hy), bind_ret.
  by rewrite vec_set_in_range, bind_ret by by eapply lookup_lt_Some.
Qed.

Lemma Normalize_loop snr dt vt vp fr norm (n : nat) :
  ∀ (k : nat) (re im : list float),
    (k + n)%nat = length re → length im = length re →
    for_loop (WaveformAtAPointFT.Normalize_body snr) k n
      (WaveformAtAPointFT.mk dt vt vp re im fr norm)
    = mret (WaveformAtAPointFT.mk dt vt vp
              (take k re ++ WaveformAtAPointFT.divided_by snr (drop k re))
              (take k im ++ WaveformAtAPointFT.divided_by snr (drop k im))
              fr norm).
Proof.
  induction n as [|n IH]; intros k re im Hk Him.
  - simpl. rewrite !drop_ge, !take_ge by lia. simpl. by rewrite !app_nil_r.
  - destruct (lookup_lt_is_Some_2 re k) as [x Hx]; [lia|].
    destruct (lookup_lt_is_Some_2 im k) as [y Hy]; [lia|].
    rewrite (drop_S re x k Hx), (drop_S im y k Hy).
    cbn [for_loop].
    rewrite (Normalize_body_round _ _ _ _ _ _ _ _ _ x y Hx Hy), bind_ret.
    rewrite IH by (rewrite ?length_insert; lia).
    rewrite !take_S_insert by lia.
    rewrite !drop_insert_lt by lia.
    unfold WaveformAtAPointFT.divided_by. rewrite !fmap_cons.
    by rewrite <- !app_assoc.
Qed.

(** On a well-formed waveform that is not yet normalized, with a noise
    spectrum of the right size and at least two bins, [Normalize] returns
    the receiver with every real and imaginary part divided by its [SNR],
    the flag set, and the frequencies, angles and time step as they were. *)
Theorem Normalize_divides_by_SNR W InversePSD :
  WaveformAtAPointFT.well_formed W →
  WaveformAtAPointFT.IsNormalized W = false →
  length InversePSD = WaveformAtAPointFT.NFreq W →
  (2 ≤ WaveformAtAPointFT.NFreq W)%nat →
  ∃ snr,
    WaveformAtAPointFT.SNR W InversePSD = mret snr
    ∧ WaveformAtAPointFT.Normalize W InversePSD
      = mret (WaveformAtAPointFT.mk
                (WaveformAtAPointFT.mDt W) (WaveformAtAPointFT.mVartheta W)
                (WaveformAtAPointFT.mVarphi W)
                (WaveformAtAPointFT.divided_by snr (WaveformAtAPointFT.mRealF W))
                (WaveformAtAPointFT.divided_by snr (WaveformAtAPointFT.mImagF W))
                (WaveformAtAPointFT.mFreqs W) true).
Proof.
  intros HW Hflag Hpsd Htwo.
  destruct (SNR_returns W InversePSD HW Hpsd Htwo) as [snr Hsnr].
  exists snr. split; [exact Hsnr|].
  unfold WaveformAtAPointFT.Normalize.
  unfold WaveformAtAPointFT.IsNormalized in Hflag. rewrite Hflag, Hsnr, bind_ret.
  destruct W as [dt vt vp re im fr norm]. destruct HW as [Hre Him].
  unfold WaveformAtAPointFT.NFreq in Hre, Him. simpl in *.
  rewrite (Normalize_loop snr dt vt vp fr norm (length re) 0 re im) by lia.
  by rewrite bind_ret.
Qed.

Lemma Normalize_divides_by_SNR_witness :
  WaveformAtAPointFT.Normalize three_bins [1%float; 1%float; 1%float]
  = mret (WaveformAtAPointFT.mk 0.5%float 0%float 0%float
            [0.25%float; 0.25%float; 0.25%float]
            [0.25%float; 0%float; 0%float]
            [0%float; 1%float; 2%float] true).
Proof.
  destruct (Normalize_divides_by_SNR three_bins [1%float; 1%float; 1%float])
    as (snr & Hsnr & Hrun);
    [split; reflexivity | reflexivity | reflexivity | vm_compute; lia |].
  rewrite Hrun. injection Hsnr as <-. vm_compute. reflexivity.
Defined.

(** [Normalize] never normalizes against a noise spectrum of the wrong
    size: on a waveform that is not yet normalized it then throws
    [GWFrames_VectorSizeMismatch], with the diagnostic of [SNR]; and
    whenever it returns on such a waveform, the spectrum had one entry per
    bin and the flag is set. *)
Theorem Normalize_checks_size W InversePSD :
  WaveformAtAPointFT.IsNormalized W = false →
  (length InversePSD ≠ WaveformAtAPointFT.NFreq W →
   WaveformAtAPointFT.Normalize W InversePSD
   = (WaveformAtAPointFT.size_mismatch_message W InversePSD,
      Throws GWFrames_VectorSizeMismatch))
  ∧ (∀ w W',
       WaveformAtAPointFT.Normalize W InversePSD = (w, Normal W') →
       length InversePSD = WaveformAtAPointFT.NFreq W
       ∧ WaveformAtAPointFT.IsNormalized W' = true).
Proof.
  intros Hflag.
  assert (Hthrow : length InversePSD ≠ WaveformAtAPointFT.NFreq W →
            WaveformAtAPointFT.Normalize W InversePSD
            = (WaveformAtAPointFT.size_mismatch_message W InversePSD,
               Throws GWFrames_VectorSizeMismatch)).
  { intros Hne. unfold WaveformAtAPointFT.Normalize.
    unfold WaveformAtAPointFT.IsNormalized in Hflag. rewrite Hflag.
    by rewrite SNR_size_mismatch by (intros Heq; by apply Hne). }
  split; [exact Hthrow|].
  intros w W' Hrun. split; [|by eapply Normalize_sets_flag].
  destruct (decide (length InversePSD = WaveformAtAPointFT.NFreq W)) as [Heq|Hne];
    [exact Heq|].
  rewrite (Hthrow Hne) in Hrun. discriminate.
Qed.

Lemma Normalize_checks_size_witness :
  WaveformAtAPointFT.Normalize three_bins [1%float]
  = (WaveformAtAPointFT.size_mismatch_message three_bins [1%float],
     Throws GWFrames_VectorSizeMismatch).
Proof.
  apply (Normalize_checks_size three_bins [1%float]); [reflexivity|].
  vm_compute. discriminate.
Defined.

(** ** Compositions of [ZeroAbove] *)

Lemma zeroed_above_twice Frequency (fr v : list float) :
  WaveformAtAPointFT.zeroed_above Frequency fr
    (WaveformAtAPointFT.zeroed_above Frequency fr v)
  = WaveformAtAPointFT.zeroed_above Frequency fr v.
Proof.
  unfold WaveformAtAPointFT.zeroed_above. revert v.
  induction fr as [|x fr IH]; intros [|y v]; try reflexivity.
  cbn [zip_with]. rewrite IH. by destruct (Frequency <? abs x)%float.
Qed.

Lemma zeroed_above_swap F1 F2 (fr v : list float) :
  WaveformAtAPointFT.zeroed_above F1 fr (WaveformAtAPointFT.zeroed_above F2 fr v)
  = WaveformAtAPointFT.zeroed_above F2 fr (WaveformAtAPointFT.zeroed_above F1 fr v).
Proof.
  unfold WaveformAtAPointFT.zeroed_above. revert v.
  induction fr as [|x fr IH]; intros [|y v]; try reflexivity.
  cbn [zip_with]. rewrite IH.
  by destruct (F1 <? abs x)%float, (F2 <? abs x)%float.
Qed.

Lemma zeroed_above_lower Low High (fr v : list float) :
  (Low <=? High)%float = true →
  WaveformAtAPointFT.zeroed_above Low fr (WaveformAtAPointFT.zeroed_above High fr v)
  = WaveformAtAPointFT.zeroed_above Low fr v.
Proof.
  intros Hle. unfold WaveformAtAPointFT.zeroed_above. revert v.
  induction fr as [|x fr IH]; intros [|y v]; try reflexivity.
  cbn [zip_with]. rewrite IH.
  destruct (Low <? abs x)%float eqn:Hlow; [reflexivity|].
  destruct (High <? abs x)%float eqn:Hhigh; [|reflexivity].
  by rewrite (float_leb_ltb_trans Low High (abs x) Hle Hhigh) in Hlow.
Qed.

(** Two calls in a row on a well-formed waveform, in terms of the arrays. *)
Lemma ZeroAbove_then_ZeroAbove W F1 F2 :
  WaveformAtAPointFT.well_formed W →
  (WaveformAtAPointFT.ZeroAbove W F1 ≫= λ W1, WaveformAtAPointFT.ZeroAbove W1 F2)
  = mret (WaveformAtAPointFT.mk
            (WaveformAtAPointFT.mDt W) (WaveformAtAPointFT.mVartheta W)
            (WaveformAtAPointFT.mVarphi W)
            (WaveformAtAPointFT.zeroed_above F2 (WaveformAtAPointFT.mFreqs W)
               (WaveformAtAPointFT.zeroed_above F1 (WaveformAtAPointFT.mFreqs W)
                  (WaveformAtAPointFT.mRealF W)))
            (WaveformAtAPointFT.zeroed_above F2 (WaveformAtAPointFT.mFreqs W)
               (WaveformAtAPointFT.zeroed_above F1 (WaveformAtAPointFT.mFreqs W)
                  (WaveformAtAPointFT.mImagF W)))
            (WaveformAtAPointFT.mFreqs W) (WaveformAtAPointFT.mNormalized W)).
Proof.
  intros HW. rewrite (ZeroAbove_returns W F1 HW), bind_ret.
  rewrite ZeroAbove_returns; [reflexivity|].
  destruct HW as [Hre Him].
  unfold WaveformAtAPointFT.well_formed, WaveformAtAPointFT.NFreq in *.
  cbn [WaveformAtAPointFT.mFreqs WaveformAtAPointFT.mRealF
         WaveformAtAPointFT.mImagF].
  by rewrite !zeroed_above_length.
Qed.

(** Calling [ZeroAbove] twice with the same threshold is the same as
    calling it once, and two calls with different thresholds give the
    same waveform in either order. *)
Theorem ZeroAbove_repeats_and_commutes W F1 F2 :
  WaveformAtAPointFT.well_formed W →
  (WaveformAtAPointFT.ZeroAbove W F1 ≫= λ W1, WaveformAtAPointFT.ZeroAbove W1 F1)
  = WaveformAtAPointFT.ZeroAbove W F1
  ∧ (WaveformAtAPointFT.ZeroAbove W F1 ≫= λ W1, WaveformAtAPointFT.ZeroAbove W1 F2)
    = (WaveformAtAPointFT.ZeroAbove W F2 ≫= λ W1, WaveformAtAPointFT.ZeroAbove W1 F1).
Proof.
  intros HW. split.
  - rewrite (ZeroAbove_then_ZeroAbove W F1 F1 HW), !zeroed_above_twice.
    by rewrite (ZeroAbove_returns W F1 HW).
  - rewrite (ZeroAbove_then_ZeroAbove W F1 F2 HW), (ZeroAbove_then_ZeroAbove W F2 F1 HW).
    by rewrite !(zeroed_above_swap F1 F2).
Qed.

Lemma ZeroAbove_repeats_and_commutes_witness :
  (WaveformAtAPointFT.ZeroAbove four_bins 15%float
     ≫= λ W1, WaveformAtAPointFT.ZeroAbove W1 25%float)
  = (WaveformAtAPointFT.ZeroAbove four_bins 25%float
       ≫= λ W1, WaveformAtAPointFT.ZeroAbove W1 15%float).
Proof.
  apply (ZeroAbove_repeats_and_commutes four_bins 15%float 25%float).
  split; reflexivity.
Defined.

(** A lower threshold subsumes a higher one: after [ZeroAbove(Low)], or
    before it, a call [ZeroAbove(High)] with [Low <= High] adds nothing. *)
Theorem ZeroAbove_lower_threshold_subsumes W Low High :
  WaveformAtAPointFT.well_formed W →
  (Low <=? High)%float = true →
  (WaveformAtAPointFT.ZeroAbove W High ≫= λ W1, WaveformAtAPointFT.ZeroAbove W1 Low)
  = WaveformAtAPointFT.ZeroAbove W Low
  ∧ (WaveformAtAPointFT.ZeroAbove W Low ≫= λ W1, WaveformAtAPointFT.ZeroAbove W1 High)
    = WaveformAtAPointFT.ZeroAbove W Low.
Proof.
  intros HW Hle. split.
  - rewrite (ZeroAbove_then_ZeroAbove W High Low HW).
    rewrite !(zeroed_above_lower Low High) by done.
    by rewrite (ZeroAbove_returns W Low HW).
  - rewrite (ZeroAbove_then_ZeroAbove W Low High HW).
    rewrite !(zeroed_above_swap High Low).
    rewrite !(zeroed_above_lower Low High) by done.
    by rewrite (ZeroAbove_returns W Low HW).
Qed.

Lemma ZeroAbove_lower_threshold_subsumes_witness :
  (WaveformAtAPointFT.ZeroAbove four_bins 25%float
     ≫= λ W1, WaveformAtAPointFT.ZeroAbove W1 15%float)
  = WaveformAtAPointFT.ZeroAbove four_bins 15%float.
Proof.
  apply (ZeroAbove_lower_threshold_subsumes four_bins 15%float 25%float).
  - split; reflexivity.
  - reflexivity.
Defined.

(** [ZeroAbove] leaves the normalization flag as it is, so on a normalized
    waveform a later [Normalize] does nothing: the waveform stays as
    [ZeroAbove] left it, whatever the noise spectrum. *)
Theorem Normalize_after_ZeroAbove_is_skipped W Frequency InversePSD :
  WaveformAtAPointFT.well_formed W →
  WaveformAtAPointFT.IsNormalized W = true →
  (WaveformAtAPointFT.ZeroAbove W Frequency
     ≫= λ W1, WaveformAtAPointFT.Normalize W1 InversePSD)
  = WaveformAtAPointFT.ZeroAbove W Frequency.
Proof.
  intros HW Hflag. rewrite (ZeroAbove_returns W Frequency HW), bind_ret.
  unfold WaveformAtAPointFT.Normalize, WaveformAtAPointFT.IsNormalized in *.
  cbn [WaveformAtAPointFT.mNormalized]. by rewrite Hflag.
Qed.

Lemma Normalize_after_ZeroAbove_is_skipped_witness :
  (WaveformAtAPointFT.ZeroAbove (WaveformAtAPointFT.set_mNormalized four_bins true)
     15%float
     ≫= λ W1, WaveformAtAPointFT.Normalize W1 [1%float])
  = mret (WaveformAtAPointFT.mk 0.5%float 0%float 0%float
            [1%float; 2%float; 0%float; 0%float]
            [0%float; 5%float; 0%float; 0%float]
            [0%float; 10%float; 20%float; 30%float]
            true).
Proof.
  rewrite (Normalize_after_ZeroAbove_is_skipped
             (WaveformAtAPointFT.set_mNormalized four_bins true) 15%float [1%float]);
    [reflexivity | split; reflexivity | reflexivity].
Defined.

(** ** What the constructor stores *)

Lemma store_body_round Dt_dimensionful RealT dt vt vp re im fr norm (i : nat) a b :
  RealT !! (2 * i)%nat = Some a → RealT !! (2 * i + 1)%nat = Some b →
  (i < length re)%nat → (i < length im)%nat →
  WaveformAtAPointFT.store_body Dt_dimensionful RealT i
    (WaveformAtAPointFT.mk dt vt vp re im fr norm)
  = mret (WaveformAtAPointFT.mk dt vt vp
            (<[i:=(Dt_dimensionful * a)%float]> re)
            (<[i:=(Dt_dimensionful * b)%float]> im) fr norm).
Proof.
  intros Ha Hb Hre Him. unfold WaveformAtAPointFT.store_body.
  cbn [WaveformAtAPointFT.mRealF WaveformAtAPointFT.mImagF].
  rewrite (vec_get_lookup _ _ _ Ha), bind_ret.
  rewrite vec_set_in_range, bind_ret by done.
  rewrite (vec_get_lookup _ _ _ Hb), bind_ret.
  by rewrite vec_set_in_range, bind_ret by done.
Qed.

Lemma store_loop Dt_dimensionful RealT dt vt vp fr norm (n : nat) :
  ∀ (k : nat) (re im : list float),
    (k + n)%nat = (length RealT `div` 2)%nat →
    (k + n < length re)%nat → (k + n < length im)%nat →
    for_loop (WaveformAtAPointFT.store_body Dt_dimensionful RealT) k n
      (WaveformAtAPointFT.mk dt vt vp re im fr norm)
    = mret (WaveformAtAPointFT.mk dt vt vp
              (take k re
               ++ WaveformAtAPointFT.scaled_entries Dt_dimensionful RealT 0 k n
               ++ drop (k + n) re)
              (take k im
               ++ WaveformAtAPointFT.scaled_entries Dt_dimensionful RealT 1 k n
               ++ drop (k + n) im)
              fr norm).
Proof.
  induction n as [|n IH]; intros k re im Hk Hre Him.
  - simpl. rewrite Nat.add_0_r. by rewrite !take_drop.
  - assert (Hhalf : (2 * k + 1 < length RealT)%nat).
    { pose proof (Nat.div_mod_eq (length RealT) 2) as Hdiv.
      pose proof (Nat.mod_upper_bound (length RealT) 2). lia. }
    destruct (lookup_lt_is_Some_2 RealT (2 * k)) as [a Ha]; [lia|].
    destruct (lookup_lt_is_Some_2 RealT (2 * k + 1)) as [b Hb]; [lia|].
    cbn [for_loop].
    rewrite (store_body_round _ _ _ _ _ _ _ _ _ _ a b Ha Hb) by lia.
    rewrite bind_ret.
    rewrite IH; [|lia|rewrite length_insert; lia|rewrite length_insert; lia].
    rewrite !take_S_insert by lia.
    rewrite !drop_insert_lt by lia.
    unfold WaveformAtAPointFT.scaled_entries. cbn [seq fmap list_fmap].
    rewrite Nat.add_0_r, Ha, Hb. cbn [default].
    replace (S k + n)%nat with (k + S n)%nat by lia.
    by rewrite <- !app_assoc.
Qed.

(** The end of the constructor throws [GWFrames_VectorSizeMismatch] unless
    there is one frequency for every pair of entries of the transform and
    one more; then it returns, whatever the value arrays held before, with
    the scaled even entries as real parts, the scaled odd entries as
    imaginary parts, a zero last bin, a zero imaginary part in the first
    bin, and everything else as it was. *)
Theorem store_spectrum_result this Dt_dimensionful RealT :
  (length (WaveformAtAPointFT.mFreqs this) ≠ (length RealT `div` 2 + 1)%nat →
   WaveformAtAPointFT.store_spectrum this Dt_dimensionful RealT
   = (WaveformAtAPointFT.spectrum_mismatch_message this RealT,
      Throws GWFrames_VectorSizeMismatch))
  ∧ (length (WaveformAtAPointFT.mFreqs this) = (length RealT `div` 2 + 1)%nat →
     WaveformAtAPointFT.store_spectrum this Dt_dimensionful RealT
     = mret (WaveformAtAPointFT.mk
               (WaveformAtAPointFT.mDt this) (WaveformAtAPointFT.mVartheta this)
               (WaveformAtAPointFT.mVarphi this)
               (WaveformAtAPointFT.spectrum_real Dt_dimensionful RealT)
               (WaveformAtAPointFT.spectrum_imag Dt_dimensionful RealT)
               (WaveformAtAPointFT.mFreqs this)
               (WaveformAtAPointFT.mNormalized this))).
Proof.
  unfold WaveformAtAPointFT.store_spectrum. split.
  - intros Hne. rewrite decide_True by done.
    unfold mbind, M_bind, bind, cerr, throw. by rewrite append_empty_r.
  - intros Heq. rewrite decide_False by (intros Hne; by apply Hne).
    destruct this as [dt vt vp re im fr norm].
    cbn [WaveformAtAPointFT.mFreqs] in Heq.
    unfold WaveformAtAPointFT.set_mImagF, WaveformAtAPointFT.set_mRealF.
    cbn [WaveformAtAPointFT.mDt WaveformAtAPointFT.mVartheta
           WaveformAtAPointFT.mVarphi WaveformAtAPointFT.mFreqs
           WaveformAtAPointFT.mRealF WaveformAtAPointFT.mImagF
           WaveformAtAPointFT.mNormalized].
    remember (length RealT `div` 2)%nat as h eqn:Hh.
    rewrite (store_loop Dt_dimensionful RealT dt vt vp fr norm h 0)
      by (rewrite ?length_resize; lia).
    rewrite bind_ret.
    cbn [WaveformAtAPointFT.mDt WaveformAtAPointFT.mVartheta
           WaveformAtAPointFT.mVarphi WaveformAtAPointFT.mFreqs
           WaveformAtAPointFT.mRealF WaveformAtAPointFT.mImagF
           WaveformAtAPointFT.mNormalized take app Nat.add].
    assert (Hlen : ∀ offset (v : list float),
              length v = S h →
              length (WaveformAtAPointFT.scaled_entries Dt_dimensionful RealT offset 0 h
                      ++ drop h v) = S h).
    { intros offset v Hv. unfold WaveformAtAPointFT.scaled_entries.
      rewrite length_app, length_fmap, length_seq, length_drop. lia. }
    assert (Hlast : ∀ offset (v : list float),
              length v = S h →
              <[h:=0%float]>
                (WaveformAtAPointFT.scaled_entries Dt_dimensionful RealT offset 0 h
                 ++ drop h v)
              = WaveformAtAPointFT.scaled_entries Dt_dimensionful RealT offset 0 h
                ++ [0%float]).
    { intros offset v Hv.
      assert (Hs : length (WaveformAtAPointFT.scaled_entries
                             Dt_dimensionful RealT offset 0 h) = h).
      { unfold WaveformAtAPointFT.scaled_entries.
        by rewrite length_fmap, length_seq. }
      destruct (drop h v) as [|x [|y rest]] eqn:Hdrop.
      - apply (f_equal length) in Hdrop. rewrite length_drop in Hdrop. simpl in Hdrop. lia.
      - rewrite insert_app_r_alt by lia. rewrite Hs, Nat.sub_diag. reflexivity.
      - apply (f_equal length) in Hdrop. rewrite length_drop in Hdrop. simpl in Hdrop. lia. }
    rewrite !take_0, !app_nil_l.
    rewrite !Hlen by (rewrite length_resize; lia).
    replace (S h - 1)%nat with h by lia.
    rewrite !vec_set_in_range, !bind_ret
      by (rewrite ?length_insert, ?Hlen; rewrite ?length_resize; lia).
    rewrite !Hlast by (rewrite length_resize; lia).
    unfold WaveformAtAPointFT.spectrum_real, WaveformAtAPointFT.spectrum_imag.
    rewrite <- Hh.
    by rewrite vec_set_in_range, bind_ret by (rewrite length_app; simpl; lia).
Qed.

Lemma store_spectrum_result_witness :
  WaveformAtAPointFT.store_spectrum
    (WaveformAtAPointFT.mk 0.5%float 0%float 0%float [] []
       [0%float; 1%float; 2%float] false)
    2%float [1%float; 2%float; 3%float; 4%float]
  = mret (WaveformAtAPointFT.mk 0.5%float 0%float 0%float
            [2%float; 6%float; 0%float] [0%float; 8%float; 0%float]
            [0%float; 1%float; 2%float] false).
Proof.
  destruct (store_spectrum_result
              (WaveformAtAPointFT.mk 0.5%float 0%float 0%float [] []
                 [0%float; 1%float; 2%float] false)
              2%float [1%float; 2%float; 3%float; 4%float]) as [_ Hstore].
  rewrite Hstore; [vm_compute; reflexivity | reflexivity].
Defined.

(** ** The overloads that take a detector name *)

(** [Normalize(Detector)] evaluates the noise curve of the detector before
    anything else.  On a normalized waveform it therefore ends as
    [WU::InverseNoiseCurve] ends: it returns the receiver unchanged if the
    noise curve is returned, and throws what the noise curve throws,
    although nothing was left to normalize. *)
Theorem Normalize_Detector_evaluates_noise_curve `{WaveformAtAPointFT.NoiseCurves} W Detector :
  WaveformAtAPointFT.IsNormalized W = true →
  WaveformAtAPointFT.Normalize_Detector W Detector
  = (WaveformAtAPointFT.InverseNoiseCurve (WaveformAtAPointFT.mFreqs W) Detector ≫= λ _, mret W)
  ∧ (∀ w e,
       WaveformAtAPointFT.InverseNoiseCurve (WaveformAtAPointFT.mFreqs W) Detector = (w, Throws e) →
       WaveformAtAPointFT.Normalize_Detector W Detector = (w, Throws e))
  ∧ (∀ w InversePSD,
       WaveformAtAPointFT.InverseNoiseCurve (WaveformAtAPointFT.mFreqs W) Detector
       = (w, Normal InversePSD) →
       WaveformAtAPointFT.Normalize_Detector W Detector = (w, Normal W)).
Proof.
  intros Hflag. unfold WaveformAtAPointFT.Normalize_Detector.
  assert (Hskip : ∀ psd, WaveformAtAPointFT.Normalize W psd = mret W).
  { intros psd. unfold WaveformAtAPointFT.Normalize.
    unfold WaveformAtAPointFT.IsNormalized in Hflag. by rewrite Hflag. }
  repeat split.
  - unfold mbind, M_bind, bind.
    destruct (WaveformAtAPointFT.InverseNoiseCurve _ _) as [w [psd|e|]]; [|reflexivity..].
    by rewrite Hskip.
  - intros w e ->. reflexivity.
  - intros w psd ->. unfold mbind, M_bind, bind.
    rewrite Hskip. unfold mret, M_ret, ret. by rewrite append_empty_r.
Qed.

Lemma Normalize_Detector_evaluates_noise_curve_witness :
  @WaveformAtAPointFT.Normalize_Detector unknown_detector
    (WaveformAtAPointFT.set_mNormalized three_bins true) "LIGO"
  = ("Unknown detector", Throws GWFrames_NotYetImplemented).
Proof.
  destruct (@Normalize_Detector_evaluates_noise_curve unknown_detector
              (WaveformAtAPointFT.set_mNormalized three_bins true) "LIGO")
    as (_ & Hthrow & _); [reflexivity|].
  apply Hthrow. reflexivity.
Defined.

(** ** [Match] *)

Lemma for_loop_invariant_at {St} (P : nat → St → Prop) (body : nat → St → M St) :
  (∀ i st w st', P i st → body i st = (w, Normal st') → P (S i) st') →
  ∀ n k st w st',
    P k st → for_loop body k n st = (w, Normal st') → P (k + n)%nat st'.
Proof.
  intros Hbody. induction n as [|n IH]; intros k st w st' HP Hrun.
  - injection Hrun as _ <-. by rewrite Nat.add_0_r.
  - cbn [for_loop] in Hrun.
    apply bind_normal_inv in Hrun as (w1 & st1 & w2 & Hfirst & Hrest & _).
    replace (k + S n)%nat with (S k + n)%nat by lia.
    eapply IH; [|exact Hrest]. by eapply Hbody.
Qed.

Lemma float_ltb_irrefl (x : float) : (x <? x)%float = false.
Proof.
  destruct (x <? x)%float eqn:Hlt; [|reflexivity].
  rewrite ltb_spec, SFltb_key in Hlt. destruct Hlt as (_ & _ & Hlt).
  destruct (SF_key (Prim2SF x)) as [[a b] c]. unfold key_lt in Hlt. lia.
Qed.



Lemma Match_search_round `{WaveformAtAPointFT.FFT} data (i : nat) st w st' :
  WaveformAtAPointFT.largest_below data i st →
  WaveformAtAPointFT.Match_search_body data i st = (w, Normal st') →
  WaveformAtAPointFT.largest_below data (S i) st'.
Proof.
  intros ([k [Hk Hki]] & [wm Hmax] & Hall) Hrun.
  unfold WaveformAtAPointFT.Match_search_body in Hrun.
  apply bind_normal_inv in Hrun as (w1 & mag & w2 & Hmag & Hrun & _).
  destruct (st.2 <? mag)%float eqn:Hlt; injection Hrun as _ <-.
  - split; [exists i; split; [reflexivity|lia]|].
    split; [by exists w1|].
    intros j Hj. destruct (decide (j = i)) as [->|Hne].
    + exists w1, mag. split; [exact Hmag|]. apply float_ltb_irrefl.
    + destruct (Hall j) as (wj & mj & Hj1 & Hj2); [lia|].
      exists wj, mj. split; [exact Hj1|].
      by apply (float_ltb_raise st.2 mag mj).
  - split; [exists k; split; [exact Hk|lia]|].
    split; [by exists wm|].
    intros j Hj. destruct (decide (j = i)) as [->|Hne].
    + by exists w1, mag.
    + apply Hall. lia.
Qed.

(** Whenever [Match] returns, it has built the cross spectrum by its fill
    loop on a fresh [WrapVecDoub] of [2*N] doubles ([N = 2*(NFreq()-1)])
    and transformed it by [idft]; on the transformed data, the match it
    reports is four times the frequency step of the receiver times the
    magnitude of entry [maxi], none of the entries the search looked at
    (entry 0 and the entries below [N]) has a larger magnitude, the phase
    offset is half the [atan2] of that entry, and the time offset is
    [maxi/(N*df)] below [N/2] and [-(N-maxi)/(N*df)] from there on. *)
Theorem Match_reports_largest_magnitude `{WaveformAtAPointFT.FFT}
    W B InversePSD w timeOffset phaseOffset match_ :
  WaveformAtAPointFT.Match W B InversePSD
  = (w, Normal (timeOffset, phaseOffset, match_)) →
  let N := WaveformAtAPointFT.to_unsigned
             (2 * (Z.of_nat (WaveformAtAPointFT.NFreq W) - 1)) in
  ∃ fresh filled data (maxi : nat) maxmag f0 f1 re im,
    (∃ w0, WaveformAtAPointFT.WrapVecDoub_new
             (WaveformAtAPointFT.to_unsigned (2 * N)) = (w0, Normal fresh))
    ∧ (∃ w1, for_loop (WaveformAtAPointFT.Match_fill_body W B InversePSD) 0
               (WaveformAtAPointFT.NFreq W) fresh = (w1, Normal filled))
    ∧ (∃ w2, WaveformAtAPointFT.idft filled = (w2, Normal data))
    ∧ WaveformAtAPointFT.mFreqs W !! 0%nat = Some f0
    ∧ WaveformAtAPointFT.mFreqs W !! 1%nat = Some f1
    ∧ match_ = (4 * (f1 - f0) * maxmag)%float
    ∧ (maxi < 1 + Z.to_nat (N - 1))%nat
    ∧ (∃ wm, WaveformAtAPointFT.magnitude data (Z.of_nat maxi)
             = (wm, Normal maxmag))
    ∧ (∀ j : nat, (j < 1 + Z.to_nat (N - 1))%nat →
         ∃ wj mag,
           WaveformAtAPointFT.magnitude data (Z.of_nat j) = (wj, Normal mag)
           ∧ (maxmag <? mag)%float = false)
    ∧ (∃ wi, WaveformAtAPointFT.wv_imag data (Z.of_nat maxi) = (wi, Normal im))
    ∧ (∃ wr, WaveformAtAPointFT.wv_real data (Z.of_nat maxi) = (wr, Normal re))
    ∧ phaseOffset = (WaveformAtAPointFT.atan2 im re / 2)%float
    ∧ timeOffset
      = (if Z.of_nat maxi <? N `div` 2
         then (WaveformAtAPointFT.unsigned_to_double (Z.of_nat maxi)
               / (WaveformAtAPointFT.unsigned_to_double N * (f1 - f0)))%float
         else (- WaveformAtAPointFT.unsigned_to_double
                   (WaveformAtAPointFT.to_unsigned (N - Z.of_nat maxi))
               / (WaveformAtAPointFT.unsigned_to_double N * (f1 - f0)))%float).
Proof.
  intros Hrun N. unfold WaveformAtAPointFT.Match in Hrun. fold N in Hrun.
  apply bind_normal_inv in Hrun as (? & [] & ? & _ & Hrun & _).
  destruct (decide _) as [|Hsizes].
  { apply bind_normal_inv in Hrun as (? & ? & ? & _ & Hrun & _). discriminate. }
  apply bind_normal_inv in Hrun as (? & f1 & ? & Hf1 & Hrun & _).
  apply bind_normal_inv in Hrun as (? & f0 & ? & Hf0 & Hrun & _).
  apply bind_normal_inv in Hrun as (? & g1 & ? & _ & Hrun & _).
  apply bind_normal_inv in Hrun as (? & g0 & ? & _ & Hrun & _).
  apply vec_get_normal_inv in Hf1, Hf0.
  destruct (WaveformAtAPointFT.eps <? _)%float.
  { apply bind_normal_inv in Hrun as (? & ? & ? & _ & Hrun & _). discriminate. }
  apply bind_normal_inv in Hrun as (wn & fresh & ? & Hnew & Hrun & _).
  apply bind_normal_inv in Hrun as (wf & filled & ? & Hfill & Hrun & _).
  apply bind_normal_inv in Hrun as (wt & data & ? & Hidft & Hrun & _).
  apply bind_normal_inv in Hrun as (w0 & mag0 & ? & Hmag0 & Hrun & _).
  apply bind_normal_inv in Hrun as (? & [maxi maxmag] & ? & Hsearch & Hrun & _).
  apply bind_normal_inv in Hrun as (wi & im & ? & Him & Hrun & _).
  apply bind_normal_inv in Hrun as (wr & re & ? & Hre & Hrun & _).
  injection Hrun as _ <- <- <-.
  apply (for_loop_invariant_at (WaveformAtAPointFT.largest_below data)) in Hsearch.
  - destruct Hsearch as ([k [Hk Hki]] & Hmax & Hall). simpl in Hk, Hmax, Hall.
    subst maxi.
    exists fresh, filled, data, k, maxmag, f0, f1, re, im.
    split; [by exists wn|]. split; [by exists wf|]. split; [by exists wt|].
    split; [exact Hf0|]. split; [exact Hf1|]. split; [reflexivity|].
    split; [exact Hki|]. split; [exact Hmax|]. split; [exact Hall|].
    split; [by exists wi|]. split; [by exists wr|]. by split.
  - intros i st w' st'. apply Match_search_round.
  - split; [exists 0%nat; split; [reflexivity|lia]|].
    split; [by exists w0|].
    intros j Hj. replace j with 0%nat by lia.
    exists w0, mag0. split; [exact Hmag0|]. apply float_ltb_irrefl.
Qed.

Lemma Match_reports_largest_magnitude_witness :
  ∃ filled data (maxi : nat) maxmag,
    for_loop (@WaveformAtAPointFT.Match_fill_body no_fft three_bins three_bins
                [1%float; 1%float; 1%float]) 0 3
      (replicate 8 0%float) = mret filled
    ∧ @WaveformAtAPointFT.idft no_fft filled = mret data
    ∧ (maxi < 4)%nat
    ∧ (∃ wm, @WaveformAtAPointFT.magnitude no_fft data (Z.of_nat maxi)
             = (wm, Normal maxmag))
    ∧ (∀ j : nat, (j < 4)%nat →
         ∃ wj mag,
           @WaveformAtAPointFT.magnitude no_fft data (Z.of_nat j) = (wj, Normal mag)
           ∧ (maxmag <? mag)%float = false)
    ∧ (4 * (1 - 0) * maxmag)%float = 8%float.
Proof.
  destruct (@Match_reports_largest_magnitude no_fft three_bins three_bins
              [1%float; 1%float; 1%float] WaveformAtAPointFT.warning_message
              0%float 0%float 8%float)
    as (fresh & filled & data & maxi & maxmag & f0 & f1 & re & im
        & [w0 Hnew] & [w1 Hfill] & [w2 Hidft] & Hf0 & Hf1 & Hmatch
        & Hmaxi & Hmax & Hall & _);
    [vm_compute; reflexivity|].
  injection Hnew as <- <-. injection Hf0 as <-. injection Hf1 as <-.
  vm_compute in Hfill. injection Hfill as <- <-.
  injection Hidft as <- <-.
  by exists [2; 0; 1; 0; 1; 0; 0; 0]%float, [2; 0; 1; 0; 1; 0; 0; 0]%float,
    maxi, maxmag.
Defined.

(** ** The window function *)

Lemma BumpFunction_window_start (exp : float → float) (x x0 x1 : float) :
  ((x <=? x0)%float = true → WaveformAtAPointFT.BumpFunction exp x x0 x1 = 0%float)
  ∧ ((x <=? x0)%float = false → (x1 <=? x)%float = true →
     WaveformAtAPointFT.BumpFunction exp x x0 x1 = 1%float).
Proof.
  unfold WaveformAtAPointFT.BumpFunction. split.
  - by intros ->.
  - by intros -> ->.
Qed.

(** Outside a non-empty window the bump function does not depend on
    [exp]: it is exactly 0 up to and at the start of the window and, when
    the start is below the end, exactly 1 at the end and beyond. *)
Theorem BumpFunction_outside_window (exp : float → float) (x x0 x1 : float) :
  ((x <=? x0)%float = true → WaveformAtAPointFT.BumpFunction exp x x0 x1 = 0%float)
  ∧ ((x0 <? x1)%float = true → (x1 <=? x)%float = true →
     WaveformAtAPointFT.BumpFunction exp x x0 x1 = 1%float).
Proof.
  unfold WaveformAtAPointFT.BumpFunction. split.
  - by intros ->.
  - intros Hwindow Hafter. rewrite Hafter.
    destruct (x <=? x0)%float eqn:Hbefore; [|reflexivity].
    pose proof (float_leb_ltb_trans x x0 x1 Hbefore Hwindow) as Hlt.
    by rewrite (float_leb_not_ltb x1 x Hafter) in Hlt.
Qed.

Lemma BumpFunction_outside_window_witness :
  WaveformAtAPointFT.BumpFunction (λ _, 0%float) 1%float 1%float 3%float = 0%float
  ∧ WaveformAtAPointFT.BumpFunction (λ _, 0%float) 3%float 1%float 3%float = 1%float.
Proof.
  destruct (BumpFunction_outside_window (λ _, 0%float) 1%float 1%float 3%float)
    as [Hzero _].
  destruct (BumpFunction_outside_window (λ _, 0%float) 3%float 1%float 3%float)
    as [_ Hone].
  split; [apply Hzero | apply Hone]; reflexivity.
Defined.

(** ** The size constructors *)

(** [DataGrid(size)] accepts every [size >= 0], stores [size] samples on a
    grid of [floor(sqrt(size))] points each way, and so satisfies the
    shape invariant exactly when [size] is a perfect square. *)
Theorem DataGrid_of_size_shape (size : Z) :
  0 ≤ size →
  ∃ g, DataGrid.of_size size = mret g
       ∧ DataGrid.N_theta g = Z.sqrt size
       ∧ DataGrid.N_phi g = Z.sqrt size
       ∧ Z.of_nat (length (DataGrid.data g)) = size
       ∧ (DataGrid.shape_ok g ↔ ∃ n, 0 ≤ n ∧ size = n * n).
Proof.
  intros Hsize. destruct (DataGrid_of_size_fields size Hsize)
    as (g & Hg & Htheta & Hphi & Hlen).
  exists g. repeat split; try done.
  - unfold DataGrid.shape_ok. rewrite Hlen, Htheta, Hphi. intros Hshape.
    exists (Z.sqrt size). split; [apply Z.sqrt_nonneg|exact Hshape].
  - intros (n & Hn & ->). unfold DataGrid.shape_ok.
    rewrite Hlen, Htheta, Hphi. by rewrite (Z.sqrt_square n Hn).
Qed.

Lemma DataGrid_of_size_shape_witness :
  ∃ g, DataGrid.of_size 5 = mret g
       ∧ DataGrid.N_theta g = 2 ∧ DataGrid.N_phi g = 2
       ∧ Z.of_nat (length (DataGrid.data g)) = 5
       ∧ ¬ DataGrid.shape_ok g.
Proof.
  destruct (DataGrid_of_size_shape 5) as (g & Hg & Htheta & Hphi & Hlen & Hshape);
    [lia|].
  exists g. repeat split; try done.
  intros Hok. apply Hshape in Hok as (n & Hn & Hsq).
  destruct (Z.le_gt_cases n 2); nia.
Defined.

(** [Modes(size)] accepts every [size >= 0] and stores [size] coefficients
    with spin 0 and degree 0, whatever the size: it satisfies the shape
    invariant exactly when [size] is 1.  A negative size throws. *)
Theorem Modes_of_size_shape (size : Z) :
  (0 ≤ size →
   ∃ m, Modes.of_size size = mret m
        ∧ Modes.Spin m = 0 ∧ Modes.EllMax m = 0
        ∧ Z.of_nat (length (Modes.data m)) = size
        ∧ (Modes.shape_ok m ↔ size = 1))
  ∧ (size < 0 → Modes.of_size size = throw std_exception).
Proof.
  split.
  - intros Hsize. destruct (Modes_of_size_fields size Hsize) as (m & Hm & Hell & Hlen).
    exists m. unfold Modes.shape_ok. rewrite Hlen, Hell.
    repeat split; try done; try lia.
    unfold Modes.of_size in Hm. destruct (size <? 0); [discriminate|].
    by injection Hm as <-.
  - intros Hneg. unfold Modes.of_size.
    by destruct (Z.ltb_spec size 0); [|lia].
Qed.

Lemma Modes_of_size_shape_witness :
  (∃ m, Modes.of_size 4 = mret m ∧ Modes.EllMax m = 0 ∧ ¬ Modes.shape_ok m)
  ∧ Modes.of_size (-1) = throw std_exception.
Proof.
  destruct (Modes_of_size_shape 4) as [Hpos _].
  destruct (Modes_of_size_shape (-1)) as [_ Hneg].
  split; [|apply Hneg; lia].
  destruct Hpos as (m & Hm & _ & Hell & _ & Hshape); [lia|].
  exists m. repeat split; try done. intros Hok. apply Hshape in Hok. lia.
Defined.

(** [SuperMomenta(size)] builds [size] zero times and as many empty mode
    fields: [NTimes()] is [size] (where that fits an [int]), [operator[]]
    returns an empty [Modes] of spin and degree 0 for every index below
    [size], and reads outside the series for every other index. *)
Theorem SuperMomenta_of_size_consistent (size : N) :
  ∃ S, SuperMomenta.of_size size = mret S
       ∧ length (SuperMomenta.t S) = N.to_nat size
       ∧ length (SuperMomenta.Psi S) = N.to_nat size
       ∧ (Z.of_N size ≤ INT_MAX → SuperMomenta.NTimes S = Z.of_N size)
       ∧ (∀ i, (i < N.to_nat size)%nat →
            SuperMomenta.t S !! i = Some 0%float
            ∧ SuperMomenta.index_const S i = mret (Modes.mk 0 0 []))
       ∧ (∀ i, (N.to_nat size ≤ i)%nat →
            SuperMomenta.index_const S i = undefined).
Proof.
  eexists. split; [reflexivity|]. simpl. rewrite !length_replicate.
  repeat split.
  - intros Hmax. unfold SuperMomenta.NTimes. simpl. rewrite length_replicate.
    rewrite N_nat_Z. apply to_int_in_range. unfold int_range, INT_MIN. lia.
  - by apply lookup_replicate_2.
  - unfold SuperMomenta.index_const, vec_get. simpl.
    by rewrite lookup_replicate_2.
  - intros i Hi. unfold SuperMomenta.index_const, vec_get. simpl.
    rewrite lookup_ge_None_2; [reflexivity|]. by rewrite length_replicate.
Qed.

Lemma SuperMomenta_of_size_consistent_witness :
  ∃ S, SuperMomenta.of_size 3 = mret S
       ∧ SuperMomenta.NTimes S = 3
       ∧ SuperMomenta.index_const S 2 = mret (Modes.mk 0 0 [])
       ∧ SuperMomenta.index_const S 3 = undefined.
Proof.
  destruct (SuperMomenta_of_size_consistent 3)
    as (S & HS & _ & _ & Hn & Hin & Hout).
  exists S. split; [exact HS|]. split; [|split].
  - apply Hn. unfold INT_MAX. simpl. lia.
  - apply Hin. simpl. lia.
  - apply Hout. simpl. lia.
Defined.

(** ** Element access of [DataGrid] and [Modes] *)

(** An assignment through [operator[]] below the number of stored entries
    changes that entry and nothing else: the entry reads back, the other
    entries, the spin and the dimensions (or degree) are as before, and
    the shape invariant is kept.  At or beyond the number of stored
    entries both the read and the assignment are outside the vector. *)
Theorem element_assignment (i : nat) (x : complex) :
  (∀ g, (i < length (DataGrid.data g))%nat →
     ∃ g', DataGrid.assign g i x = mret g'
           ∧ DataGrid.subscript g' i = mret x
           ∧ (∀ j, j ≠ i → DataGrid.subscript g' j = DataGrid.subscript g j)
           ∧ DataGrid.Spin g' = DataGrid.Spin g
           ∧ DataGrid.N_theta g' = DataGrid.N_theta g
           ∧ DataGrid.N_phi g' = DataGrid.N_phi g
           ∧ (DataGrid.shape_ok g → DataGrid.shape_ok g'))
  ∧ (∀ g, (length (DataGrid.data g) ≤ i)%nat →
       DataGrid.assign g i x = undefined ∧ DataGrid.subscript g i = undefined)
  ∧ (∀ m, (i < length (Modes.data m))%nat →
       ∃ m', Modes.assign m i x = mret m'
             ∧ Modes.subscript m' i = mret x
             ∧ (∀ j, j ≠ i → Modes.subscript m' j = Modes.subscript m j)
             ∧ Modes.Spin m' = Modes.Spin m
             ∧ Modes.EllMax m' = Modes.EllMax m
             ∧ (Modes.shape_ok m → Modes.shape_ok m'))
  ∧ (∀ m, (length (Modes.data m) ≤ i)%nat →
       Modes.assign m i x = undefined ∧ Modes.subscript m i = undefined).
Proof.
  split; [|split; [|split]].
  - intros g Hi. eexists. split.
    { unfold DataGrid.assign. by rewrite vec_set_in_range, bind_ret by done. }
    unfold DataGrid.subscript, DataGrid.shape_ok, vec_get. simpl.
    rewrite list_lookup_insert_eq by done. repeat split; try done.
    + intros j Hj. by rewrite list_lookup_insert_ne.
    + by rewrite length_insert.
  - intros g Hi. unfold DataGrid.assign, DataGrid.subscript, vec_set, vec_get.
    rewrite decide_False by lia. by rewrite lookup_ge_None_2.
  - intros m Hi. eexists. split.
    { unfold Modes.assign. by rewrite vec_set_in_range, bind_ret by done. }
    unfold Modes.subscript, Modes.shape_ok, vec_get. simpl.
    rewrite list_lookup_insert_eq by done. repeat split; try done.
    + intros j Hj. by rewrite list_lookup_insert_ne.
    + by rewrite length_insert.
  - intros m Hi. unfold Modes.assign, Modes.subscript, vec_set, vec_get.
    rewrite decide_False by lia. by rewrite lookup_ge_None_2.
Qed.

Lemma element_assignment_witness :
  ∃ g', DataGrid.assign grid_2x2 3 (Complex 1%float 2%float) = mret g'
        ∧ DataGrid.subscript g' 3 = mret (Complex 1%float 2%float)
        ∧ DataGrid.shape_ok g'.
Proof.
  destruct (element_assignment 3 (Complex 1%float 2%float)) as (Hgrid & _).
  destruct (Hgrid grid_2x2) as (g' & Hset & Hget & _ & _ & _ & _ & Hshape);
    [simpl; lia|].
  exists g'. split; [exact Hset|]. split; [exact Hget|].
  apply Hshape. reflexivity.
Defined.

(** ** Extreme thresholds of [ZeroAbove] *)

Lemma zeroed_above_none Frequency (fr v : list float) :
  (∀ x, x ∈ fr → (Frequency <? abs x)%float = false) →
  length v = length fr →
  WaveformAtAPointFT.zeroed_above Frequency fr v = v.
Proof.
  unfold WaveformAtAPointFT.zeroed_above. revert v.
  induction fr as [|x fr IH]; intros [|y v] Hall Hlen; try done.
  cbn [zip_with]. rewrite (Hall x) by by left.
  rewrite IH; [done| |by injection Hlen].
  intros x' Hx'. apply Hall. by right.
Qed.

Lemma zeroed_above_all Frequency (fr v : list float) :
  (∀ x, x ∈ fr → (Frequency <? abs x)%float = true) →
  length v = length fr →
  WaveformAtAPointFT.zeroed_above Frequency fr v = replicate (length fr) 0%float.
Proof.
  unfold WaveformAtAPointFT.zeroed_above. revert v.
  induction fr as [|x fr IH]; intros [|y v] Hall Hlen; try done.
  cbn [zip_with length replicate]. rewrite (Hall x) by by left.
  rewrite IH; [done| |by injection Hlen].
  intros x' Hx'. apply Hall. by right.
Qed.

(** A NaN is above nothing and below nothing. *)
Lemma float_nan_ltb (y : float) : (nan <? y)%float = false.
Proof. rewrite ltb_spec. reflexivity. Qed.

(** A negative number is below the magnitude of every number. *)
Lemma float_negative_below_abs (a x : float) :
  (a <? 0)%float = true → (x =? x)%float = true → (a <? abs x)%float = true.
Proof.
  rewrite !FloatAxioms.ltb_spec, FloatAxioms.eqb_spec, FloatAxioms.abs_spec, !SFltb_key.
  change (Prim2SF 0) with (S754_zero false).
  intros (Ha & _ & Hlt) Hx. split; [exact Ha|].
  destruct (Prim2SF x) as [sx|sx| |sx mx ex]; try discriminate;
    destruct (SF_key (Prim2SF a)) as [[a1 a2] a3];
    unfold key_lt in *; simpl in *; (split; [reflexivity|lia]).
Qed.

(** A threshold that no frequency exceeds in magnitude, a NaN threshold
    among them, leaves the waveform as it is; a negative threshold zeroes
    every bin of a waveform whose frequencies are numbers. *)
Theorem ZeroAbove_extremes W Frequency :
  WaveformAtAPointFT.well_formed W →
  ((∀ x, x ∈ WaveformAtAPointFT.mFreqs W → (Frequency <? abs x)%float = false) →
   WaveformAtAPointFT.ZeroAbove W Frequency = mret W)
  ∧ WaveformAtAPointFT.ZeroAbove W nan = mret W
  ∧ ((Frequency <? 0)%float = true →
     (∀ x, x ∈ WaveformAtAPointFT.mFreqs W → (x =? x)%float = true) →
     WaveformAtAPointFT.ZeroAbove W Frequency
     = mret (WaveformAtAPointFT.mk
               (WaveformAtAPointFT.mDt W) (WaveformAtAPointFT.mVartheta W)
               (WaveformAtAPointFT.mVarphi W)
               (replicate (WaveformAtAPointFT.NFreq W) 0%float)
               (replicate (WaveformAtAPointFT.NFreq W) 0%float)
               (WaveformAtAPointFT.mFreqs W)
               (WaveformAtAPointFT.mNormalized W))).
Proof.
  intros HW.
  assert (Hnone : ∀ threshold,
            (∀ x, x ∈ WaveformAtAPointFT.mFreqs W → (threshold <? abs x)%float = false) →
            WaveformAtAPointFT.ZeroAbove W threshold = mret W).
  { intros threshold Hall. rewrite (ZeroAbove_returns W threshold HW).
    destruct HW as [Hre Him]. unfold WaveformAtAPointFT.NFreq in Hre, Him.
    rewrite !zeroed_above_none by done. by destruct W. }
  split; [apply Hnone|]. split.
  - apply Hnone. intros x _. apply float_nan_ltb.
  - intros Hneg Hnumbers. rewrite (ZeroAbove_returns W Frequency HW).
    destruct HW as [Hre Him]. unfold WaveformAtAPointFT.NFreq in *.
    rewrite !zeroed_above_all; [done|..]; try done;
      intros x Hx; apply float_negative_below_abs; auto.
Qed.

Lemma ZeroAbove_extremes_witness :
  WaveformAtAPointFT.ZeroAbove four_bins 30%float = mret four_bins
  ∧ WaveformAtAPointFT.ZeroAbove four_bins (-1)%float
    = mret (WaveformAtAPointFT.mk 0.5%float 0%float 0%float
              [0%float; 0%float; 0%float; 0%float]
              [0%float; 0%float; 0%float; 0%float]
              [0%float; 10%float; 20%float; 30%float] false).
Proof.
  destruct (ZeroAbove_extremes four_bins 30%float) as (Hnone & _ & _);
    [split; reflexivity|].
  destruct (ZeroAbove_extremes four_bins (-1)%float) as (_ & _ & Hall);
    [split; reflexivity|].
  split.
  - apply Hnone. intros x Hx.
    repeat (apply elem_of_cons in Hx as [->|Hx]; [reflexivity|]).
    by apply elem_of_nil in Hx.
  - apply Hall; [reflexivity|]. intros x Hx.
    repeat (apply elem_of_cons in Hx as [->|Hx]; [reflexivity|]).
    by apply elem_of_nil in Hx.
Defined.

(** ** The windowing loop of the constructor *)

Lemma window_loop_spec exp Begin End times (n : nat) :
  ∀ (j : nat) (RealT : list float),
    (j + n)%nat = length times → (length times ≤ length RealT)%nat →
    WaveformAtAPointFT.window_loop exp Begin End times j n RealT
    = mret (take j RealT
            ++ WaveformAtAPointFT.windowed exp Begin End (drop j times) (drop j RealT)).
Proof.
  induction n as [|n IH]; intros j RealT Hj Hlen.
  - cbn [WaveformAtAPointFT.window_loop]. rewrite (drop_ge times) by lia.
    cbn [WaveformAtAPointFT.windowed]. by rewrite take_drop.
  - destruct (lookup_lt_is_Some_2 times j) as [t Ht]; [lia|].
    destruct (lookup_lt_is_Some_2 RealT j) as [x Hx]; [lia|].
    cbn [WaveformAtAPointFT.window_loop].
    rewrite (vec_get_lookup _ _ _ Ht), bind_ret, (vec_get_lookup _ _ _ Hx), bind_ret.
    rewrite vec_set_in_range, bind_ret by lia.
    rewrite (drop_S times t j Ht), (drop_S RealT x j Hx).
    cbn [WaveformAtAPointFT.windowed].
    destruct (End <=? t)%float.
    + rewrite insert_take_drop by lia. reflexivity.
    + rewrite IH by (rewrite ?length_insert; lia).
      rewrite take_S_insert by lia. rewrite drop_insert_lt by lia.
      by rewrite <- app_assoc.
Qed.

Lemma windowed_length exp Begin End (times RealT : list float) :
  length (WaveformAtAPointFT.windowed exp Begin End times RealT) = length RealT.
Proof.
  revert RealT. induction times as [|t times IH]; intros [|x RealT]; try reflexivity.
  cbn [WaveformAtAPointFT.windowed length].
  destruct (End <=? t)%float; [reflexivity|]. by rewrite IH.
Qed.

Lemma windowed_lookup exp Begin End (times RealT : list float) (j : nat) :
  (∀ i ti, (i < j)%nat → times !! i = Some ti → (End <=? ti)%float = false) →
  ∀ t x, times !! j = Some t → RealT !! j = Some x →
    WaveformAtAPointFT.windowed exp Begin End times RealT !! j
    = Some (x * WaveformAtAPointFT.BumpFunction exp t Begin End)%float.
Proof.
  revert times RealT. induction j as [|j IH]; intros [|t0 times] [|x0 RealT] Hno t x Ht Hx;
    try discriminate.
  - injection Ht as <-. injection Hx as <-. reflexivity.
  - cbn [WaveformAtAPointFT.windowed]. rewrite (Hno 0%nat t0) by (lia || done).
    apply IH; [|done..].
    intros i ti Hi Hti. apply (Hno (S i) ti); [lia|done].
Qed.

Lemma windowed_after_break exp Begin End (times RealT : list float) (k j : nat) tk :
  times !! k = Some tk → (End <=? tk)%float = true → (k < j)%nat →
  WaveformAtAPointFT.windowed exp Begin End times RealT !! j = RealT !! j.
Proof.
  revert times RealT k. induction j as [|j IH]; intros times RealT k Hk Hbreak Hkj; [lia|].
  destruct times as [|t0 times]; [discriminate|].
  destruct RealT as [|x0 RealT]; [reflexivity|].
  cbn [WaveformAtAPointFT.windowed].
  destruct (End <=? t0)%float eqn:Ht0; [reflexivity|].
  destruct k as [|k].
  - injection Hk as ->. by rewrite Hbreak in Ht0.
  - apply (IH times RealT k); [done|done|lia].
Qed.

(** With one sample for every time, the windowing loop returns; it leaves
    the number of samples as it was; every sample up to and including the
    first whose time is at or after [WindowEndTime] has been multiplied by
    the bump function of its time (so by exactly 0 up to
    [WindowBeginTime]); and every later sample is untouched. *)
Theorem window_effect exp Begin End (NewTimes RealT : list float) :
  (length NewTimes ≤ length RealT)%nat →
  ∃ RealT',
    WaveformAtAPointFT.window exp Begin End NewTimes RealT = mret RealT'
    ∧ length RealT' = length RealT
    ∧ (∀ j t x,
         (∀ i ti, (i < j)%nat → NewTimes !! i = Some ti → (End <=? ti)%float = false) →
         NewTimes !! j = Some t → RealT !! j = Some x →
         RealT' !! j = Some (x * WaveformAtAPointFT.BumpFunction exp t Begin End)%float
         ∧ ((t <=? Begin)%float = true → RealT' !! j = Some (x * 0)%float))
    ∧ (∀ k tk j,
         NewTimes !! k = Some tk → (End <=? tk)%float = true → (k < j)%nat →
         RealT' !! j = RealT !! j).
Proof.
  intros Hlen. eexists. split.
  { unfold WaveformAtAPointFT.window.
    by rewrite (window_loop_spec exp Begin End NewTimes _ 0 RealT) by lia. }
  rewrite take_0, app_nil_l, !drop_0. split; [apply windowed_length|]. split.
  - intros j t x Hno Ht Hx.
    rewrite (windowed_lookup exp Begin End NewTimes RealT j Hno t x Ht Hx).
    split; [reflexivity|]. intros Hbefore.
    by rewrite (proj1 (BumpFunction_window_start exp t Begin End) Hbefore).
  - intros k tk j Hk Hbreak Hkj. by eapply windowed_after_break.
Qed.

Lemma window_effect_witness :
  WaveformAtAPointFT.window (λ _, 1%float) 1%float 2%float
    [0%float; 1%float; 2%float; 3%float; 4%float]
    [5%float; 6%float; 7%float; 8%float; 9%float]
  = mret [0%float; 0%float; 7%float; 8%float; 9%float].
Proof.
  destruct (window_effect (λ _, 1%float) 1%float 2%float
              [0%float; 1%float; 2%float; 3%float; 4%float]
              [5%float; 6%float; 7%float; 8%float; 9%float])
    as (RealT' & Hrun & _); [simpl; lia|].
  rewrite Hrun. vm_compute in Hrun. by injection Hrun as <-.
Defined.
